(** * lwe::mem::pool — a fixed-size chunk allocator, embedded over a flat heap

    The allocator of [pool.hh] / [pool.inl] lays chunks out by raw pointer
    arithmetic inside one aligned allocation per block and overlays the
    free list on the chunk storage.  The embedding therefore keeps a flat,
    word-granular heap: every [block] field and every chunk word is a cell
    of the same address space, so that a store through a chunk pointer and
    a store through a [block*] hit the same cell when the addresses agree.

    - pointers and [size_t] are 64-bit (a pointer takes 8 bytes: pool.hh
      notes that the four pointers of a block take 32 bytes on x64);
      arithmetic wraps modulo [2^64];
    - a load from, or a store to, an address that no live allocation
      covers is a fault, as is a load of a cell never written;
    - the raw memory backend is an oracle: each [construct] is given the
      address the backend would hand out (0 when it fails);
    - template parameter [T] is the default [void]: no object is built or
      destroyed in the chunk;
    - the pool objects live outside the block heap and are addressed by
      their [this] pointer;
    - the alignment utility, the idle deque, the cross-owner queue and the
      backend are not among the sources and follow the interface the
      specification gives for them;
    - the [statics] facade, three functions that forward to one
      thread-local pool object, is left out: what holds of a pool object
      holds of that one.

    The first part holds the embedding and the scenarios that the results
    speak about; the second part holds the lemmas on single operations
    (what one run of get, set, construct, recycle, destruct does to the
    heap), frame properties, termination of the loops, and then the
    results, one section per subject, followed by what the operations
    leave alone, what they do on blocks whose chunks lie behind the
    header, and what destruct, cleanup and the destructor leave behind. *)

From stdpp Require Import gmap list.
From Stdlib Require Import ZArith Lia.

Open Scope Z_scope.

(** ** Machine words and pointers *)

Definition PTR : Z := 8.
Definition SPACE : Z := 2 ^ 64.
Definition nullptr : Z := 0.

Definition padd (a n : Z) : Z := (a + n) mod SPACE.
Definition psub (a n : Z) : Z := (a - n) mod SPACE.

(** ** Pool objects and the world *)

Record pool := Pool {
  ALIGNMENT : Z;
  SIZE : Z;
  COUNT : Z;
  ALLOCTATE : Z;
  top : Z;
  idle : list Z;
  all : gset Z;
  gc : list Z
}.

Definition with_top (p : pool) (v : Z) : pool :=
  Pool (ALIGNMENT p) (SIZE p) (COUNT p) (ALLOCTATE p) v (idle p) (all p) (gc p).
Definition with_idle (p : pool) (v : list Z) : pool :=
  Pool (ALIGNMENT p) (SIZE p) (COUNT p) (ALLOCTATE p) (top p) v (all p) (gc p).
Definition with_all (p : pool) (v : gset Z) : pool :=
  Pool (ALIGNMENT p) (SIZE p) (COUNT p) (ALLOCTATE p) (top p) (idle p) v (gc p).
Definition with_gc (p : pool) (v : list Z) : pool :=
  Pool (ALIGNMENT p) (SIZE p) (COUNT p) (ALLOCTATE p) (top p) (idle p) (all p) v.

(** A heap cell is [None] while it is allocated but not yet written. *)
Record world := World {
  heap : gmap Z (option Z);
  pools : gmap Z pool
}.

(** ** State-and-fault monad *)

Definition M (A : Type) : Type := world -> option (A * world).

Definition ret {A} (x : A) : M A := fun w => Some (x, w).
Definition fault {A} : M A := fun _ => None.
Definition bind {A B} (m : M A) (k : A -> M B) : M B :=
  fun w => match m w with
           | Some (x, w') => k x w'
           | None => None
           end.

Notation "x <- m ;; k" := (bind m (fun x => k))
  (at level 20, m at level 99, k at level 200, only parsing).
Notation "m ;;; k" := (bind m (fun _ => k))
  (at level 100, k at level 200, only parsing, right associativity).

Definition when (c : bool) (m : M unit) : M unit := if c then m else ret tt.

Definition is_null (a : Z) : bool := a =? nullptr.

Definition load (a : Z) : M Z :=
  fun w => match heap w !! a with
           | Some (Some v) => Some (v, w)
           | _ => None
           end.

Definition store (a v : Z) : M unit :=
  fun w => match heap w !! a with
           | Some _ => Some (tt, World (<[a := Some v]> (heap w)) (pools w))
           | None => None
           end.

Definition the_pool (this : Z) : M pool :=
  fun w => match pools w !! this with
           | Some p => Some (p, w)
           | None => None
           end.

Definition update_pool (this : Z) (f : pool -> pool) : M unit :=
  fun w => match pools w !! this with
           | Some p => Some (tt, World (heap w) (<[this := f p]> (pools w)))
           | None => None
           end.

(** ** struct pool::block — field offsets in declaration order *)

Definition SIZEOF_BLOCK : Z := 32.
Definition f_from (b : Z) : Z := padd b 0.
Definition f_curr (b : Z) : Z := padd b 8.
Definition f_next (b : Z) : Z := padd b 16.
Definition f_prev (b : Z) : Z := padd b 24.

(** The loop of [block::initialize]: [n] iterations left, [cursor] the
    chunk being written. *)
Fixpoint initialize_loop (n : nat) (self parent cursor : Z) : M Z :=
  match n with
  | O => ret cursor
  | S n' =>
      p <- the_pool parent ;;
      let next := padd cursor (SIZE p) in
      store cursor self ;;;
      store (padd cursor PTR) next ;;;
      initialize_loop n' self parent next
  end.

Definition initialize (self parent count alignment : Z) : M unit :=
  store (f_from self) parent ;;;
  store (f_next self) nullptr ;;;
  store (f_prev self) nullptr ;;;
  let cursor := psub (padd self alignment) PTR in
  store (f_curr self) cursor ;;;
  let loop := (count - 1) mod SPACE in
  cursor <- initialize_loop (Z.to_nat loop) self parent cursor ;;
  store cursor self ;;;
  store (padd cursor PTR) nullptr.

Definition get (self : Z) : M Z :=
  curr <- load (f_curr self) ;;
  if is_null curr then ret nullptr
  else
    nxt <- load (padd curr PTR) ;;
    store (f_curr self) nxt ;;;
    ret curr.

Definition set (self in_ : Z) : M unit :=
  if is_null in_ then ret tt
  else
    curr <- load (f_curr self) ;;
    store (padd in_ PTR) curr ;;;
    store (f_curr self) in_.

(** ** External collaborators *)

(** The words of an allocation of [n] cells starting at [a]. *)
Fixpoint cells (n : nat) (a : Z) : list Z :=
  match n with
  | O => []
  | S n' => a :: cells n' (padd a PTR)
  end.

Definition unmapped (h : gmap Z (option Z)) (a : Z) : bool :=
  match h !! a with
  | None => true
  | Some _ => false
  end.

(** Modelled from the spec: the raw memory backend's allocation, reached
    in setup through _aligned_malloc; "aligned allocation of N bytes at
    alignment A (returns null on failure)".  [reply] is what the backend
    answers for this request: null, or the base of a region that is aligned
    as asked and overlaps no live allocation.  The region's cells become
    allocated and unwritten.  A reply that breaks this contract has no
    execution. *)
Definition aligned_malloc (reply bytes alignment : Z) : M Z :=
  if is_null reply then ret nullptr
  else fun w =>
    let cs := cells (Z.to_nat (bytes / PTR)) reply in
    if (reply mod alignment =? 0) && forallb (unmapped (heap w)) cs
    then Some (reply,
               World (foldr (fun a h => <[a := None]> h) (heap w) cs) (pools w))
    else None.

(** Modelled from the spec: allocator::free of allocator.hh, which is not
    among the sources; "freeing a pointer previously obtained this way".
    The region of [bytes] bytes at [p] stops being mapped. *)
Definition free (p bytes : Z) : M unit :=
  fun w =>
    let cs := cells (Z.to_nat (bytes / PTR)) p in
    Some (tt, World (foldr (fun a h => delete a h) (heap w) cs) (pools w)).

(** Modelled from the spec: util::aligner::adjust of aligner.hh, which is
    not among the sources; "value rounded up to a multiple of unit". *)
Definition adjust (value unit : Z) : Z :=
  ((value + unit - 1) / unit * unit) mod SPACE.

Fixpoint boundary_from (fuel : nat) (p n : Z) : Z :=
  match fuel with
  | O => p
  | S fuel' => if n <=? p then p else boundary_from fuel' (2 * p) n
  end.

(** Modelled from the spec: util::aligner::boundary of aligner.hh, which
    is not among the sources; "power-of-two >= n", taken as the least. *)
Definition boundary (n : Z) : Z := boundary_from 63 1 n.

(** Modelled from the spec: data::deque::push of deque.hh, which is not
    among the sources; the idle queue takes a block at its back. *)
Definition idle_push (this b : Z) : M unit :=
  update_pool this (fun q => with_idle q (idle q ++ [b])).

(** Modelled from the spec: data::deque::fifo of deque.hh, which is not
    among the sources; "pop-front/FIFO", [None] when the queue is empty. *)
Definition idle_fifo (this : Z) : M (option Z) :=
  p <- the_pool this ;;
  match idle p with
  | [] => ret None
  | b :: rest => update_pool this (fun q => with_idle q rest) ;;; ret (Some b)
  end.

(** Modelled from the spec: concurrent_queue::push, the cross-owner queue
    of untyped pointers; producers are interleaved at the granularity of
    whole operations. *)
Definition gc_push (owner x : Z) : M unit :=
  update_pool owner (fun q => with_gc q (gc q ++ [x])).

(** Modelled from the spec: concurrent_queue::try_pop, "non-blocking
    pop-if-present"; [None] when nothing is queued. *)
Definition gc_try_pop (this : Z) : M (option Z) :=
  p <- the_pool this ;;
  match gc p with
  | [] => ret None
  | x :: rest => update_pool this (fun q => with_gc q rest) ;;; ret (Some x)
  end.

(** ** class pool *)

(** pool::pool.  [DEF_CACHE] is config::DEF_CACHE, declared outside the
    sources. *)
Definition pool_ctor (DEF_CACHE chunk count align : Z) : pool :=
  let A := boundary align in
  let S := adjust (padd chunk PTR) align in
  let C := adjust count DEF_CACHE in
  let header := adjust (padd SIZEOF_BLOCK PTR) A in
  let bytes := adjust (psub (padd header ((S * C) mod SPACE)) PTR) A in
  Pool A S C bytes nullptr [] ∅ [].

Definition set_top (this v : Z) : M unit :=
  update_pool this (fun q => with_top q v).

Definition setup (this reply : Z) : M Z :=
  p <- the_pool this ;;
  self <- aligned_malloc reply (ALLOCTATE p) (ALIGNMENT p) ;;
  if is_null self then ret nullptr
  else
    initialize self this (COUNT p) (ALIGNMENT p) ;;;
    update_pool this (fun q => with_all q ({[self]} ∪ all q)) ;;;
    ret self.

(** The body of [if (ptr == nullptr)] in construct. *)
Definition take_from_top (this : Z) : M Z :=
  p <- the_pool this ;;
  ptr <- get (top p) ;;
  c <- load (f_curr (top p)) ;;
  (if is_null c then
     n <- load (f_next (top p)) ;;
     if is_null n then set_top this nullptr
     else
       set_top this n ;;;
       pv <- load (f_prev n) ;;
       store (f_next pv) nullptr ;;;
       store (f_prev n) nullptr
   else ret tt) ;;;
  ret ptr.

(** The block selection of construct: [None] is the early
    [return nullptr], [Some ptr] carries the local [ptr]. *)
Definition select (this reply : Z) : M (option Z) :=
  p <- the_pool this ;;
  if is_null (top p) then
    if negb (length (idle p) =? 0)%nat then
      b <- idle_fifo this ;;
      match b with
      | Some b => set_top this b
      | None => ret tt
      end ;;;
      ret (Some nullptr)
    else
      g <- gc_try_pop this ;;
      match g with
      | Some ptr => ret (Some ptr)
      | None =>
          t <- setup this reply ;;
          set_top this t ;;;
          if is_null t then ret None else ret (Some nullptr)
      end
  else ret (Some nullptr).

(** pool::construct with [T = void]; [reply] is the backend's answer should
    setup be reached. *)
Definition construct (this reply : Z) : M Z :=
  r <- select this reply ;;
  match r with
  | None => ret nullptr
  | Some ptr =>
      ptr <- (if is_null ptr then take_from_top this else ret ptr) ;;
      ret (padd ptr PTR)
  end.

Definition recycle (this in_ : Z) : M unit :=
  parent <- load in_ ;;
  c <- load (f_curr parent) ;;
  when (is_null c)
    (p <- the_pool this ;;
     when (negb (is_null (top p))) (store (f_prev (top p)) parent) ;;;
     store (f_next parent) (top p) ;;;
     store (f_prev parent) nullptr ;;;
     set_top this parent) ;;;
  set parent in_ ;;;
  c' <- load (f_curr parent) ;;
  if c' =? padd parent SIZEOF_BLOCK then
    p <- the_pool this ;;
    if parent =? top p then ret tt
    else
      n <- load (f_next parent) ;;
      when (negb (is_null n))
        (pv <- load (f_prev parent) ;;
         store (f_prev n) pv ;;;
         store (f_next parent) nullptr) ;;;
      pv <- load (f_prev parent) ;;
      when (negb (is_null pv))
        (n' <- load (f_next parent) ;;
         store (f_next pv) n' ;;;
         store (f_prev parent) nullptr) ;;;
      idle_push this parent
  else ret tt.

(** [while (gc.try_pop(x)) body(x)] on the queue of [this], with [fuel]
    iterations allowed. *)
Fixpoint while_pop (fuel : nat) (this : Z) (body : Z -> M unit) : M unit :=
  g <- gc_try_pop this ;;
  match g with
  | None => ret tt
  | Some x =>
      match fuel with
      | O => fault
      | S fuel' => body x ;;; while_pop fuel' this body
      end
  end.

(** pool::destruct with [T = void]. *)
Definition destruct (this in_ : Z) : M unit :=
  if is_null in_ then ret tt
  else
    let ptr := psub in_ PTR in
    child <- load ptr ;;
    self <- load (f_from child) ;;
    (if this =? self then recycle this ptr else gc_push self ptr) ;;;
    p <- the_pool this ;;
    while_pop (length (gc p)) this (recycle this).

(** Body of the first loop of cleanup. *)
Definition reclaim (garbage : Z) : M unit :=
  b <- load garbage ;;
  set b garbage.

(** Second loop of cleanup. *)
Fixpoint trim (fuel : nat) (this : Z) : M unit :=
  p <- the_pool this ;;
  if negb (length (idle p) =? 0)%nat then
    match fuel with
    | O => fault
    | S fuel' =>
        b <- idle_fifo this ;;
        match b with
        | Some ptr =>
            when (negb (is_null ptr))
              (update_pool this (fun q => with_all q (all q ∖ {[ptr]})) ;;;
               free ptr (ALLOCTATE p))
        | None => ret tt
        end ;;;
        trim fuel' this
    end
  else ret tt.

Definition cleanup (this : Z) : M unit :=
  p <- the_pool this ;;
  while_pop (length (gc p)) this reclaim ;;;
  p <- the_pool this ;;
  trim (length (idle p)) this.

(** pool::release with [T = void]; a static member, so without [this]. *)
Definition release (in_ : Z) : M unit :=
  let ptr := psub in_ PTR in
  b <- load ptr ;;
  parent <- load (f_from b) ;;
  gc_push parent in_.

(** pool::~pool. *)
Definition pool_dtor (this : Z) : M unit :=
  p <- the_pool this ;;
  foldr (fun b k => free b (ALLOCTATE p) ;;; k) (ret tt) (elements (all p)) ;;;
  fun w => Some (tt, World (heap w) (delete this (pools w))).

(** ** Configurations and scenarios *)

(** The value an execution returns, if it does not fault. *)
Definition result {A} (m : M A) (w : world) : option A :=
  match m w with
  | Some (x, _) => Some x
  | None => None
  end.

(** config::DEF_CACHE is taken to be 2 in the configurations below, which
    keeps a requested count of 2 as it is. *)

(** The example of pool.hh: chunk 96, align 32, count 2. *)
Definition doc_pool : pool := pool_ctor 2 96 2 32.

(** chunk 56, align 64, count 2: the header padding equals the alignment. *)
Definition wide_pool : pool := pool_ctor 2 56 2 64.

(** chunk 8, align 16, count 2. *)
Definition narrow_pool : pool := pool_ctor 2 8 2 16.

(** Addresses of two pool objects, and worlds holding them with no block
    allocated yet. *)
Definition A_ : Z := 1024.
Definition B_ : Z := 2048.

Definition one_pool (p : pool) : world := World ∅ {[ A_ := p ]}.
Definition two_pools (p : pool) : world := World ∅ {[ A_ := p; B_ := p ]}.

(** A pool whose block at 4096 has both chunks free again. *)
Definition warm_world : world :=
  match (x <- construct A_ 4096 ;; destruct A_ x) (one_pool wide_pool) with
  | Some (_, w) => w
  | None => one_pool wide_pool
  end.

(** construct A, construct B, destruct B, destruct A, construct twice. *)
Definition lifo_scenario (this r1 r2 r3 r4 : Z) : M (Z * Z * Z * Z) :=
  A <- construct this r1 ;;
  B <- construct this r2 ;;
  destruct this B ;;;
  destruct this A ;;;
  X <- construct this r3 ;;
  Y <- construct this r4 ;;
  ret (A, B, X, Y).

(** A chunk is released through pool::release and its owner then runs
    cleanup; reports the chunk, the owner's queue after the release, and
    what the next three constructs return when the backend has nothing to
    give. *)
Definition release_then_cleanup : M (Z * list Z * Z * Z * Z) :=
  X <- construct A_ 4096 ;;
  release X ;;;
  p <- the_pool A_ ;;
  cleanup A_ ;;;
  Y1 <- construct A_ nullptr ;;
  Y2 <- construct A_ nullptr ;;
  Y3 <- construct A_ nullptr ;;
  ret (X, gc p, Y1, Y2, Y3).

(** The same with the owner running destruct of another chunk instead of
    cleanup. *)
Definition release_then_destruct : M (Z * Z * Z * Z * Z) :=
  X1 <- construct A_ 4096 ;;
  X2 <- construct A_ nullptr ;;
  release X1 ;;;
  destruct A_ X2 ;;;
  Y1 <- construct A_ nullptr ;;
  Y2 <- construct A_ nullptr ;;
  Y3 <- construct A_ nullptr ;;
  ret (X1, X2, Y1, Y2, Y3).

(** After a release and the owner's cleanup: the second chunk handed out
    next, and the word in front of it. *)
Definition reissue_after_release : M (Z * Z) :=
  X <- construct A_ 4096 ;;
  release X ;;;
  cleanup A_ ;;;
  Y1 <- construct A_ nullptr ;;
  Y2 <- construct A_ nullptr ;;
  r <- load (psub Y2 PTR) ;;
  ret (Y2, r).

(** Two blocks; the second one, not [top], gets its only chunk in use
    back.  Reports the third chunk, then [top], the second block's [curr]
    and the idle queue after the destructs, then whether the second block
    is still in [all] after cleanup and what two more constructs return. *)
Definition idle_scenario : M (Z * Z * Z * list Z * bool * Z * Z) :=
  X1 <- construct A_ 4096 ;;
  X2 <- construct A_ nullptr ;;
  X3 <- construct A_ 8192 ;;
  destruct A_ X1 ;;;
  destruct A_ X3 ;;;
  p <- the_pool A_ ;;
  c <- load (f_curr 8192) ;;
  cleanup A_ ;;;
  q <- the_pool A_ ;;
  Y1 <- construct A_ nullptr ;;
  Y2 <- construct A_ nullptr ;;
  ret (X3, top p, c, idle p, bool_decide (8192 ∈ all q), Y1, Y2).

(** Pool A's only block is full; pool B destructs one of its chunks and A
    runs cleanup.  Reports the chunk, A's queue before cleanup, A's [top]
    and the block's [curr] after it, and the next construct of A when the
    backend answers [reply]. *)
Definition foreign_free_then_cleanup (reply : Z) : M (Z * list Z * Z * Z * Z) :=
  X1 <- construct A_ 4096 ;;
  X2 <- construct A_ nullptr ;;
  destruct B_ X2 ;;;
  p <- the_pool A_ ;;
  cleanup A_ ;;;
  q <- the_pool A_ ;;
  c <- load (f_curr 4096) ;;
  Y <- construct A_ reply ;;
  ret (X2, gc p, top q, c, Y).

(** Two constructs in a row on the pool [this], the backend answering
    [r1] and then [r2] when asked. *)
Definition construct_twice (this r1 r2 : Z) : M (Z * Z) :=
  X <- construct this r1 ;;
  Y <- construct this r2 ;;
  ret (X, Y).

(** The word in front of the first chunk handed out, read right after the
    construct and again after a second chunk was taken and given back.  The
    backend answers [b] and then [reply] when asked. *)
Definition backref_scenario (this b reply : Z) : M (Z * Z * Z) :=
  X1 <- construct this b ;;
  r0 <- load (psub X1 PTR) ;;
  X2 <- construct this reply ;;
  destruct this X2 ;;;
  r1 <- load (psub X1 PTR) ;;
  ret (X1, r0, r1).

(** Three chunks out of two blocks, the first released through
    pool::release, the other two destructed by the owner.  Reports [top],
    its successor in the chain and that successor's [curr], then what the
    next two constructs return. *)
Definition null_chunk_scenario : M (Z * Z * Z * Z * Z) :=
  C1 <- construct A_ 4096 ;;
  C2 <- construct A_ nullptr ;;
  C3 <- construct A_ 8192 ;;
  release C1 ;;;
  destruct A_ C3 ;;;
  destruct A_ C2 ;;;
  p <- the_pool A_ ;;
  n <- load (f_next (top p)) ;;
  c <- load (f_curr n) ;;
  C4 <- construct A_ nullptr ;;
  C5 <- construct A_ nullptr ;;
  ret (top p, n, c, C4, C5).

(** ** Frame relations *)

(** Every run of [m] relates the pools before to the pools after by [R]. *)
Definition preserves {A} (R : relation (gmap Z pool)) (m : M A) : Prop :=
  ∀ w x w', m w = Some (x, w') -> R (pools w) (pools w').

Definition same_queues : relation (gmap Z pool) :=
  fun ps ps' => ∀ q, gc <$> ps' !! q = gc <$> ps !! q.

Definition same_idle : relation (gmap Z pool) :=
  fun ps ps' => ∀ q, idle <$> ps' !! q = idle <$> ps !! q.

Definition same_top (this : Z) : relation (gmap Z pool) :=
  fun ps ps' => top <$> ps' !! this = top <$> ps !! this.

(** ** Further relations and predicates *)

(** The pool objects other than [this] are what they were. *)
Definition others_same (this : Z) : relation (gmap Z pool) :=
  fun ps ps' => ∀ q, q ≠ this -> ps' !! q = ps !! q.

(** What a pool keeps its blocks in: [top], the idle queue and [all]. *)
Definition chain_of (p : pool) : Z * list Z * gset Z := (top p, idle p, all p).

(** The pool objects other than [this] have the [top], idle queue and
    [all] they had. *)
Definition foreign_chains_same (this : Z) : relation (gmap Z pool) :=
  fun ps ps' => ∀ q, q ≠ this -> chain_of <$> ps' !! q = chain_of <$> ps !! q.

(** Every pool object is still there and has every block it had. *)
Definition all_grows : relation (gmap Z pool) :=
  fun ps ps' => ∀ q p, ps !! q = Some p ->
                       ∃ p', ps' !! q = Some p' ∧ all p ⊆ all p'.

(** A pool with its queue left out. *)
Definition sans_gc (p : pool) : pool := with_gc p [].

(** The pool objects are what they were, up to their queues. *)
Definition same_but_queues : relation (gmap Z pool) :=
  fun ps ps' => ∀ q, sans_gc <$> ps' !! q = sans_gc <$> ps !! q.

(** What allocator::free leaves of a heap: the [n] words at [b] are no
    longer mapped. *)
Definition unmap (n : nat) (b : Z) (h : gmap Z (option Z)) :
  gmap Z (option Z) := foldr (fun a h => delete a h) h (cells n b).

(** The free list initialize threads through a block, seen from its
    [k]-th chunk on: the chunks lie [size] apart from [c0], the second word
    of each holds the address of the next one, and that of the last one
    null. *)
Definition free_list_from
    (h : gmap Z (option Z)) (c0 size count k : Z) : Prop :=
  (∀ i, k <= i < count - 1 ->
        h !! (c0 + i * size + 8) = Some (Some (c0 + (i + 1) * size))) ∧
  h !! (c0 + (count - 1) * size + 8) = Some (Some nullptr).

(** ** Further scenarios *)

(** [n] constructs in a row, collecting what they return. *)
Fixpoint construct_n (n : nat) (this reply : Z) : M (list Z) :=
  match n with
  | O => ret []
  | S n' =>
      x <- construct this reply ;;
      xs <- construct_n n' this reply ;;
      ret (x :: xs)
  end.

(** The world a run ends in; the starting world if it faults. *)
Definition after {A} (m : M A) (w : world) : world :=
  match m w with
  | Some (_, w') => w'
  | None => w
  end.

(** A region of [n] words at [b], allocated and not yet written. *)
Definition blank (n : nat) (b : Z) : gmap Z (option Z) :=
  foldr (fun a h => <[a := None]> h) ∅ (cells n b).

(** One block at 4096 with its first chunk in use. *)
Definition one_taken : world := after (construct A_ 4096) (one_pool wide_pool).

(** Two pools; the first one's block at 4096 is full and off the chain. *)
Definition full_block : world :=
  after (construct A_ 4096 ;;; construct A_ nullptr) (two_pools wide_pool).

(** The second pool has handed back chunk 4224 of the first pool's full
    block: the raw chunk waits in the first pool's queue. *)
Definition queued : world := after (destruct B_ 4224) full_block.

(** Blocks 4096 (full, off the chain) and 8192 ([top], one chunk in
    use). *)
Definition second_block : world :=
  after (construct A_ 4096 ;;; construct A_ nullptr ;;; construct A_ 8192)
        (one_pool wide_pool).

(** The chain 4096 -> 8192, each block with one chunk free. *)
Definition two_on_chain : world := after (destruct A_ 4160) second_block.

(** A pool whose block at 8192, all chunks free, is parked in the idle
    queue. *)
Definition parked : world :=
  after (initialize 8192 A_ 2 64)
        (World (blank 24 8192)
               {[ A_ := with_idle (with_all wide_pool {[8192]}) [8192] ]}).

(** * Reasoning about runs *)

(** ** Monad laws and single steps *)

Lemma bind_assoc {A B C} (m : M A) (f : A -> M B) (g : B -> M C) w :
  bind (bind m f) g w = bind m (fun x => bind (f x) g) w.
Proof. unfold bind. destruct (m w) as [[x w']|]; done. Qed.

Lemma bind_ret {A B} (x : A) (k : A -> M B) w : bind (ret x) k w = k x w.
Proof. done. Qed.

Lemma bind_ret_r {A} (m : M A) w : bind m ret w = m w.
Proof. unfold bind, ret. destruct (m w) as [[x w']|]; done. Qed.

Lemma bind_eq {A B} (m : M A) (k : A -> M B) w x w' :
  m w = Some (x, w') -> bind m k w = k x w'.
Proof. intros H. unfold bind. by rewrite H. Qed.

Lemma bind_load {B} h ps a v (k : Z -> M B) :
  h !! a = Some (Some v) -> bind (load a) k (World h ps) = k v (World h ps).
Proof. intros H. unfold bind, load. cbn. by rewrite H. Qed.

Lemma bind_store {B} h ps a v (k : unit -> M B) :
  is_Some (h !! a) ->
  bind (store a v) k (World h ps) = k tt (World (<[a := Some v]> h) ps).
Proof. intros [x H]. unfold bind, store. cbn. by rewrite H. Qed.

Lemma bind_the_pool {B} h ps this p (k : pool -> M B) :
  ps !! this = Some p -> bind (the_pool this) k (World h ps) = k p (World h ps).
Proof. intros H. unfold bind, the_pool. cbn. by rewrite H. Qed.

Lemma bind_update_pool {B} h ps this p f (k : unit -> M B) :
  ps !! this = Some p ->
  bind (update_pool this f) k (World h ps) = k tt (World h (<[this := f p]> ps)).
Proof. intros H. unfold bind, update_pool. cbn. by rewrite H. Qed.

Lemma is_null_false a : a ≠ 0 -> is_null a = false.
Proof. intros. unfold is_null, nullptr. by apply Z.eqb_neq. Qed.

(** ** Pointer arithmetic *)

Lemma padd_offset_inj b i j :
  0 <= i < SPACE -> 0 <= j < SPACE -> padd b i = padd b j -> i = j.
Proof.
  unfold padd, SPACE. intros Hi Hj E.
  pose proof (Z.div_mod (b + i) (2 ^ 64) ltac:(lia)) as D1.
  pose proof (Z.div_mod (b + j) (2 ^ 64) ltac:(lia)) as D2.
  rewrite E in D1. nia.
Qed.

(** The four fields of a block never alias one another. *)
Lemma fields_distinct b :
  f_curr b ≠ f_next b ∧ f_curr b ≠ f_prev b ∧ f_next b ≠ f_prev b ∧
  f_from b ≠ f_curr b ∧ f_from b ≠ f_next b ∧ f_from b ≠ f_prev b.
Proof.
  unfold f_from, f_curr, f_next, f_prev.
  repeat split; intros E; apply padd_offset_inj in E; unfold SPACE; lia.
Qed.

Lemma psub_padd a : 0 <= a < SPACE -> psub (padd a PTR) PTR = a.
Proof.
  unfold psub, padd, PTR, SPACE. intros H.
  rewrite Zminus_mod_idemp_l. replace (a + 8 - 8) with a by lia.
  by apply Z.mod_small.
Qed.

Lemma padd_small a n : 0 <= a + n < SPACE -> padd a n = a + n.
Proof. unfold padd. apply Z.mod_small. Qed.

(** ** Symbolic execution *)

Ltac fields b :=
  let H := fresh in
  pose proof (fields_distinct b) as H;
  destruct H as (? & ? & ? & ? & ? & ?).

Ltac lookup_tac :=
  lazymatch goal with
  | |- is_Some _ =>
      repeat (rewrite lookup_insert_is_Some'; right); by eauto
  | |- _ =>
      repeat first [ rewrite lookup_insert_eq | rewrite lookup_insert_ne by done ];
      first [ eassumption | by eauto ]
  end.

Ltac mstep :=
  first
    [ rewrite bind_assoc
    | rewrite bind_ret
    | erewrite bind_load by lookup_tac
    | erewrite bind_store by lookup_tac
    | erewrite bind_the_pool by lookup_tac
    | erewrite bind_update_pool by lookup_tac ].

Ltac msimp :=
  repeat first
    [ mstep
    | rewrite is_null_false by done
    | progress change (is_null nullptr) with true
    | progress change (is_null 0) with true
    | progress cbn [negb]
    | progress cbv beta iota ].

Ltac mstart := rewrite <- bind_ret_r.

(** ** block::get and block::set *)

Lemma get_some h ps b a nx :
  h !! f_curr b = Some (Some a) -> a ≠ 0 ->
  h !! padd a PTR = Some (Some nx) ->
  get b (World h ps) = Some (a, World (<[f_curr b := Some nx]> h) ps).
Proof. intros Hc Ha Hn. unfold get. msimp. done. Qed.

Lemma get_full h ps b :
  h !! f_curr b = Some (Some nullptr) ->
  get b (World h ps) = Some (nullptr, World h ps).
Proof. intros Hc. unfold get. msimp. done. Qed.

Lemma set_some h ps b x c :
  x ≠ 0 -> h !! f_curr b = Some (Some c) -> is_Some (h !! padd x PTR) ->
  set b x (World h ps) =
    Some (tt, World (<[f_curr b := Some x]> (<[padd x PTR := Some c]> h)) ps).
Proof. intros Hx Hc Hn. unfold set. mstart. msimp. done. Qed.

Lemma set_null b w : set b nullptr w = Some (tt, w).
Proof. done. Qed.

(** X1.  After [get] hands out the head of the free list, [set] of that
    same chunk restores the block and the heap exactly: the free list is a
    stack. *)
Lemma set_get_roundtrip h ps b a nx :
  h !! f_curr b = Some (Some a) -> a ≠ 0 ->
  h !! padd a PTR = Some (Some nx) -> padd a PTR ≠ f_curr b ->
  (x <- get b ;; set b x) (World h ps) = Some (tt, World h ps).
Proof.
  intros Hc Ha Hn Hne.
  erewrite bind_eq by (by apply get_some).
  erewrite set_some; [|done|by rewrite lookup_insert_eq|lookup_tac].
  do 3 f_equal. apply map_eq. intros k.
  destruct (decide (k = f_curr b)) as [->|]; [by rewrite lookup_insert_eq|].
  rewrite lookup_insert_ne by done.
  destruct (decide (k = padd a PTR)) as [->|]; [by rewrite lookup_insert_eq|].
  by rewrite !lookup_insert_ne.
Qed.

(** ** Frame properties *)

Lemma bind_inv {A B} (m : M A) (k : A -> M B) w r :
  bind m k w = Some r -> ∃ x w1, m w = Some (x, w1) ∧ k x w1 = Some r.
Proof.
  unfold bind. destruct (m w) as [[x w1]|]; [|discriminate]. eauto.
Qed.

Section Frame.

Context (R : relation (gmap Z pool)) `{!Reflexive R, !Transitive R}.

Lemma preserves_ret {A} (x : A) : preserves R (ret x).
Proof. intros w y w' E. injection E as _ <-. reflexivity. Qed.

Lemma preserves_fault {A} : preserves R (@fault A).
Proof. intros w y w' E. discriminate E. Qed.

Lemma preserves_bind {A B} (m : M A) (k : A -> M B) :
  preserves R m -> (∀ x, preserves R (k x)) -> preserves R (bind m k).
Proof.
  intros Hm Hk w y w' E. apply bind_inv in E as (x & w1 & E1 & E2).
  etransitivity; [by eapply Hm|by eapply Hk].
Qed.

Lemma preserves_load a : preserves R (load a).
Proof.
  intros w y w' E. unfold load in E.
  destruct (heap w !! a) as [[v|]|]; try discriminate E.
  injection E as _ <-. reflexivity.
Qed.

Lemma preserves_store a v : preserves R (store a v).
Proof.
  intros w y w' E. unfold store in E.
  destruct (heap w !! a); try discriminate E.
  injection E as _ <-. reflexivity.
Qed.

Lemma preserves_the_pool this : preserves R (the_pool this).
Proof.
  intros w y w' E. unfold the_pool in E.
  destruct (pools w !! this); try discriminate E.
  injection E as _ <-. reflexivity.
Qed.

Lemma preserves_free p bytes : preserves R (free p bytes).
Proof. intros w y w' E. injection E as _ <-. reflexivity. Qed.

Lemma preserves_update_pool this f :
  (∀ ps p, ps !! this = Some p -> R ps (<[this := f p]> ps)) ->
  preserves R (update_pool this f).
Proof.
  intros Hf w y w' E. unfold update_pool in E.
  destruct (pools w !! this) eqn:Hp; try discriminate E.
  injection E as _ <-. by apply Hf.
Qed.

Lemma preserves_when c m : preserves R m -> preserves R (when c m).
Proof. intros Hm. destruct c; [done|apply preserves_ret]. Qed.

Lemma preserves_get b : preserves R (get b).
Proof.
  unfold get. apply preserves_bind; [apply preserves_load|]. intros c.
  destruct (is_null c); [apply preserves_ret|].
  apply preserves_bind; [apply preserves_load|]. intros n.
  apply preserves_bind; [apply preserves_store|]. intros ?.
  apply preserves_ret.
Qed.

Lemma preserves_set b x : preserves R (set b x).
Proof.
  unfold set. destruct (is_null x); [apply preserves_ret|].
  apply preserves_bind; [apply preserves_load|]. intros c.
  apply preserves_bind; [apply preserves_store|]. intros ?.
  apply preserves_store.
Qed.

End Frame.

Global Instance same_queues_refl : Reflexive same_queues.
Proof. by intros ps q. Qed.

Global Instance same_queues_trans : Transitive same_queues.
Proof. intros a b c H1 H2 q. by rewrite H2, H1. Qed.

Global Instance same_idle_refl : Reflexive same_idle.
Proof. by intros ps q. Qed.

Global Instance same_idle_trans : Transitive same_idle.
Proof. intros a b c H1 H2 q. by rewrite H2, H1. Qed.

Global Instance same_top_refl this : Reflexive (same_top this).
Proof. by intros ps. Qed.

Global Instance same_top_trans this : Transitive (same_top this).
Proof. intros a b c H1 H2. unfold same_top in *. by rewrite H2, H1. Qed.

Lemma same_queues_insert ps this p p' :
  ps !! this = Some p -> gc p' = gc p ->
  same_queues ps (<[this := p']> ps).
Proof.
  intros Hp Hf q. destruct (decide (this = q)) as [->|].
  - rewrite lookup_insert_eq, Hp. cbn. by rewrite Hf.
  - by rewrite lookup_insert_ne.
Qed.

Lemma same_idle_insert ps this p p' :
  ps !! this = Some p -> idle p' = idle p ->
  same_idle ps (<[this := p']> ps).
Proof.
  intros Hp Hf q. destruct (decide (this = q)) as [->|].
  - rewrite lookup_insert_eq, Hp. cbn. by rewrite Hf.
  - by rewrite lookup_insert_ne.
Qed.

Lemma same_top_insert ps this q p p' :
  ps !! q = Some p -> top p' = top p ->
  same_top this ps (<[q := p']> ps).
Proof.
  intros Hp Hf. unfold same_top. destruct (decide (q = this)) as [->|].
  - rewrite lookup_insert_eq, Hp. cbn. by rewrite Hf.
  - by rewrite lookup_insert_ne.
Qed.

Ltac frame_step :=
  lazymatch goal with
  | |- Reflexive _ => apply _
  | |- Transitive _ => apply _
  | |- preserves _ (ret _) => apply preserves_ret
  | |- preserves _ fault => apply preserves_fault
  | |- preserves _ (load _) => apply preserves_load
  | |- preserves _ (store _ _) => apply preserves_store
  | |- preserves _ (the_pool _) => apply preserves_the_pool
  | |- preserves _ (get _) => apply preserves_get
  | |- preserves _ (set _ _) => apply preserves_set
  | |- preserves _ (free _ _) => apply preserves_free
  | |- preserves _ (when _ _) => apply preserves_when
  | |- preserves _ (bind _ _) => apply preserves_bind
  | |- preserves _ (update_pool _ _) =>
      apply preserves_update_pool; intros ? ? ?
  | |- preserves _ (if ?c then _ else _) => destruct c
  | |- preserves _ (match ?c with _ => _ end) => destruct c
  | |- ∀ _, preserves _ _ => intros ?
  end.

Ltac frame := repeat frame_step.

(** recycle and the body of cleanup's first loop leave every queue as it
    is: only the loop itself pops. *)
Lemma recycle_same_queues this x : preserves same_queues (recycle this x).
Proof.
  unfold recycle, set_top, idle_push. frame; by eapply same_queues_insert.
Qed.

Lemma reclaim_same_queues x : preserves same_queues (reclaim x).
Proof. unfold reclaim. frame. Qed.

Lemma gc_try_pop_same_top this that :
  preserves (same_top this) (gc_try_pop that).
Proof. unfold gc_try_pop. frame; by eapply same_top_insert. Qed.

Lemma idle_fifo_same_top this that :
  preserves (same_top this) (idle_fifo that).
Proof. unfold idle_fifo. frame; by eapply same_top_insert. Qed.

Lemma while_pop_same_top this that body n :
  (∀ x, preserves (same_top this) (body x)) ->
  preserves (same_top this) (while_pop n that body).
Proof.
  intros Hbody. induction n as [|n IH]; cbn [while_pop]; frame;
    first [ apply gc_try_pop_same_top | apply Hbody | apply IH ].
Qed.

Lemma trim_same_top this that n : preserves (same_top this) (trim n that).
Proof.
  induction n as [|n IH]; cbn [trim]; frame;
    first [ apply IH | apply idle_fifo_same_top | by eapply same_top_insert ].
Qed.

(** cleanup never changes [top], of any pool: whatever it reclaims, it
    splices no block back into the chain. *)
Lemma cleanup_same_top this that : preserves (same_top this) (cleanup that).
Proof.
  unfold cleanup. frame;
    first [ apply trim_same_top
          | apply while_pop_same_top; intros ?; unfold reclaim; frame ].
Qed.

(** ** The loops stop *)

Lemma gc_of_pop this w x w' :
  gc_try_pop this w = Some (x, w') ->
  ∃ p, pools w !! this = Some p ∧
       match x with
       | None => gc p = [] ∧ w' = w
       | Some v => ∃ rest, gc p = v :: rest ∧ heap w' = heap w ∧
                   pools w' = <[this := with_gc p rest]> (pools w)
       end.
Proof.
  unfold gc_try_pop, bind, the_pool, update_pool, ret. intros E.
  destruct (pools w !! this) as [p|] eqn:Hp; [|discriminate E].
  exists p. split; [done|].
  destruct (gc p) as [|v rest] eqn:Hg; cbn in E.
  - injection E as <- <-. done.
  - rewrite Hp in E. injection E as <- <-. by exists rest.
Qed.

Lemma while_pop_empty this n body w p :
  pools w !! this = Some p -> gc p = [] ->
  while_pop n this body w = Some (tt, w).
Proof.
  intros Hp Hg. destruct w as [h ps]. cbn in Hp.
  destruct n; cbn [while_pop]; unfold gc_try_pop, bind, the_pool; cbn;
    by rewrite Hp, Hg.
Qed.

(** Fuel beyond the length of the queue changes nothing: the loops of
    destruct and cleanup stop because the queue runs empty, and the fuel
    they are given, the length of the queue, is enough. *)
Lemma while_pop_fuel this body n m w p :
  (∀ x, preserves same_queues (body x)) ->
  pools w !! this = Some p ->
  (length (gc p) <= n)%nat -> (length (gc p) <= m)%nat ->
  while_pop n this body w = while_pop m this body w.
Proof.
  intros Hbody. revert m w p. induction n as [|n IH]; intros m w p Hp Hn Hm.
  - destruct (gc p) eqn:Hg; [|cbn in Hn; lia].
    by rewrite !(while_pop_empty _ _ _ _ p).
  - destruct m as [|m].
    { destruct (gc p) eqn:Hg; [|cbn in Hm; lia].
      by rewrite !(while_pop_empty _ _ _ _ p). }
    cbn [while_pop]. unfold bind at 1 3.
    destruct (gc_try_pop this w) as [[[v|] w1]|] eqn:E; [|done..].
    apply gc_of_pop in E as (p' & Hp' & rest & Hg & Hh & Hps).
    rewrite Hp in Hp'. injection Hp' as <-.
    unfold bind.
    destruct (body v w1) as [[[] w2]|] eqn:Er; [|done].
    pose proof (Hbody _ _ _ _ Er this) as Hq.
    rewrite Hps, lookup_insert_eq in Hq. cbn in Hq.
    destruct (pools w2 !! this) as [p2|] eqn:Hp2; [|discriminate Hq].
    injection Hq as Hq.
    apply (IH m w2 p2 Hp2); rewrite Hq; rewrite Hg in *; cbn in *; lia.
Qed.

Lemma trim_empty this n w p :
  pools w !! this = Some p -> idle p = [] -> trim n this w = Some (tt, w).
Proof.
  intros Hp Hi. destruct w as [h ps]. cbn in Hp.
  destruct n; cbn [trim]; unfold bind, the_pool; cbn; by rewrite Hp, Hi.
Qed.

(** The second loop of cleanup stops because the idle queue runs empty. *)
Lemma trim_fuel this n m w p :
  pools w !! this = Some p ->
  (length (idle p) <= n)%nat -> (length (idle p) <= m)%nat ->
  trim n this w = trim m this w.
Proof.
  revert m w p. induction n as [|n IH]; intros m w p Hp Hn Hm.
  - destruct (idle p) eqn:Hg; [|cbn in Hn; lia].
    by rewrite !(trim_empty _ _ _ p).
  - destruct m as [|m].
    { destruct (idle p) eqn:Hg; [|cbn in Hm; lia].
      by rewrite !(trim_empty _ _ _ p). }
    destruct (idle p) as [|v rest] eqn:Hg.
    { by rewrite !(trim_empty _ _ _ p). }
    destruct w as [h ps]. cbn [pools] in Hp.
    cbn [trim]. rewrite !(bind_the_pool _ _ _ p) by done.
    rewrite Hg. cbn [length Nat.eqb negb].
    unfold idle_fifo. rewrite !bind_assoc.
    rewrite !(bind_the_pool _ _ _ p) by done. rewrite Hg.
    rewrite !bind_assoc.
    rewrite !(bind_update_pool _ _ _ p) by done.
    rewrite !bind_ret.
    set (body := when (negb (is_null v)) _).
    set (w1 := World h _).
    unfold bind.
    destruct (body w1) as [[[] w2]|] eqn:Eb; [|done].
    assert (Hq : same_idle (pools w1) (pools w2)).
    { eapply (preserves_when same_idle); [|exact Eb].
      frame. by eapply same_idle_insert. }
    specialize (Hq this). subst w1. cbn [pools] in Hq.
    rewrite lookup_insert_eq in Hq. cbn in Hq.
    destruct (pools w2 !! this) as [p2|] eqn:Hp2; [|discriminate Hq].
    injection Hq as Hq.
    apply (IH m w2 p2 Hp2); rewrite Hq; cbn in *; lia.
Qed.

(** ** pool::construct on a pool whose [top] is set *)

Lemma take_partial h ps this p a nx :
  ps !! this = Some p ->
  h !! f_curr (top p) = Some (Some a) -> a ≠ 0 ->
  h !! padd a PTR = Some (Some nx) -> nx ≠ 0 ->
  take_from_top this (World h ps) =
    Some (a, World (<[f_curr (top p) := Some nx]> h) ps).
Proof.
  intros Hp Hc Ha Hn Hnx. unfold take_from_top. msimp.
  erewrite (bind_eq (get _)) by (by apply get_some).
  msimp. done.
Qed.

Lemma take_last_alone h ps this p a :
  ps !! this = Some p ->
  h !! f_curr (top p) = Some (Some a) -> a ≠ 0 ->
  h !! padd a PTR = Some (Some 0) ->
  h !! f_next (top p) = Some (Some 0) ->
  take_from_top this (World h ps) =
    Some (a, World (<[f_curr (top p) := Some 0]> h)
                   (<[this := with_top p nullptr]> ps)).
Proof.
  intros Hp Hc Ha Hn Hnx. fields (top p). unfold take_from_top. msimp.
  erewrite (bind_eq (get _)) by (by apply get_some).
  unfold set_top. msimp. done.
Qed.

Lemma take_last_linked h ps this p a n pv :
  ps !! this = Some p ->
  h !! f_curr (top p) = Some (Some a) -> a ≠ 0 ->
  h !! padd a PTR = Some (Some 0) ->
  h !! f_next (top p) = Some (Some n) -> n ≠ 0 ->
  h !! f_prev n = Some (Some pv) ->
  is_Some (h !! f_next pv) ->
  f_curr (top p) ≠ f_prev n ->
  take_from_top this (World h ps) =
    Some (a, World (<[f_prev n := Some 0]>
                      (<[f_next pv := Some 0]>
                         (<[f_curr (top p) := Some 0]> h)))
                   (<[this := with_top p n]> ps)).
Proof.
  intros Hp Hc Ha Hn Hnx Hn0 Hpv Hs H1. fields (top p).
  unfold take_from_top. msimp.
  erewrite (bind_eq (get _)) by (by apply get_some).
  unfold set_top. msimp. done.
Qed.

Lemma construct_top h ps this p reply x W' :
  ps !! this = Some p -> top p ≠ 0 ->
  take_from_top this (World h ps) = Some (x, W') ->
  construct this reply (World h ps) = Some (padd x PTR, W').
Proof.
  intros Hp Ht Htake. unfold construct, select. msimp.
  erewrite (bind_eq (take_from_top _)) by eassumption. done.
Qed.

(** construct does not look at what get returns: on a [top] whose [curr]
    is null it computes the user address from the null chunk. *)
Lemma construct_null_chunk h ps this p n reply :
  ps !! this = Some p -> top p ≠ nullptr ->
  h !! f_curr (top p) = Some (Some nullptr) ->
  h !! f_next (top p) = Some (Some n) ->
  (n ≠ nullptr ->
   ∃ pv, h !! f_prev n = Some (Some pv) ∧ is_Some (h !! f_next pv)) ->
  ∃ w', construct this reply (World h ps) = Some (padd nullptr PTR, w').
Proof.
  intros Hp Ht Hc Hn Hlink. unfold nullptr in *.
  unfold construct, select. msimp.
  unfold take_from_top. msimp.
  erewrite (bind_eq (get _)) by (by apply get_full).
  msimp. unfold set_top.
  destruct (decide (n = 0)) as [->|Hn0].
  - msimp. eexists. reflexivity.
  - destruct (Hlink Hn0) as (pv & Hpv & Hs).
    msimp. eexists. reflexivity.
Qed.

(** ** pool::recycle *)

(** The idle test of recycle has no effect while the block is [top]. *)
Lemma idle_check_top h ps this p b x :
  ps !! this = Some p -> top p = b ->
  (if x =? padd b SIZEOF_BLOCK
   then p <- the_pool this ;;
        if b =? top p then ret tt
        else
          n <- load (f_next b) ;;
          when (negb (is_null n))
            (pv <- load (f_prev b) ;;
             store (f_prev n) pv ;;;
             store (f_next b) nullptr) ;;;
          pv <- load (f_prev b) ;;
          when (negb (is_null pv))
            (n' <- load (f_next b) ;;
             store (f_next pv) n' ;;;
             store (f_prev b) nullptr) ;;;
          idle_push this b
   else ret tt) (World h ps) = Some (tt, World h ps).
Proof.
  intros Hp Ht. destruct (x =? _); [|done].
  msimp. rewrite Ht, Z.eqb_refl. done.
Qed.

Lemma recycle_partial h ps this p b x c :
  ps !! this = Some p -> top p = b ->
  h !! x = Some (Some b) -> x ≠ 0 ->
  h !! f_curr b = Some (Some c) -> c ≠ 0 ->
  is_Some (h !! padd x PTR) ->
  recycle this x (World h ps) =
    Some (tt, World (<[f_curr b := Some x]> (<[padd x PTR := Some c]> h)) ps).
Proof.
  intros Hp Ht Hx Hx0 Hc Hc0 Hs. unfold recycle, when. msimp.
  erewrite (bind_eq (set _ _)) by (by apply set_some).
  msimp. by apply idle_check_top with p.
Qed.

Lemma recycle_full_alone h ps this p b x :
  ps !! this = Some p -> top p = 0 ->
  h !! x = Some (Some b) -> x ≠ 0 ->
  h !! f_curr b = Some (Some 0) ->
  is_Some (h !! f_next b) -> is_Some (h !! f_prev b) ->
  is_Some (h !! padd x PTR) ->
  recycle this x (World h ps) =
    Some (tt, World (<[f_curr b := Some x]>
                       (<[padd x PTR := Some 0]>
                          (<[f_prev b := Some 0]>
                             (<[f_next b := Some 0]> h))))
                    (<[this := with_top p b]> ps)).
Proof.
  intros Hp Ht Hx Hx0 Hc Hn Hpv Hs. fields b.
  unfold recycle, when, set_top. msimp.
  rewrite Ht. msimp.
  erewrite (bind_eq (set _ _)) by (apply set_some; [done|lookup_tac..]).
  msimp.
  apply idle_check_top with (with_top p b); [by rewrite lookup_insert_eq|done].
Qed.

Lemma recycle_full_linked h ps this p b x t :
  ps !! this = Some p -> top p = t -> t ≠ 0 ->
  h !! x = Some (Some b) -> x ≠ 0 ->
  h !! f_curr b = Some (Some 0) ->
  is_Some (h !! f_prev t) ->
  is_Some (h !! f_next b) -> is_Some (h !! f_prev b) ->
  is_Some (h !! padd x PTR) ->
  f_prev t ≠ f_curr b ->
  recycle this x (World h ps) =
    Some (tt, World (<[f_curr b := Some x]>
                       (<[padd x PTR := Some 0]>
                          (<[f_prev b := Some 0]>
                             (<[f_next b := Some t]>
                                (<[f_prev t := Some b]> h)))))
                    (<[this := with_top p b]> ps)).
Proof.
  intros Hp Ht Ht0 Hx Hx0 Hc Hpt Hn Hpv Hs H1. fields b.
  unfold recycle, when, set_top. msimp.
  rewrite Ht. msimp.
  erewrite (bind_eq (set _ _)) by (apply set_some; [done|lookup_tac..]).
  msimp.
  apply idle_check_top with (with_top p b); [by rewrite lookup_insert_eq|done].
Qed.

(** ** pool::destruct of a chunk of this pool, nothing queued *)

Lemma destruct_own h ps this a b h' ps' p' :
  0 <= a -> a + PTR < SPACE ->
  h !! a = Some (Some b) ->
  h !! f_from b = Some (Some this) ->
  recycle this a (World h ps) = Some (tt, World h' ps') ->
  ps' !! this = Some p' -> gc p' = [] ->
  destruct this (padd a PTR) (World h ps) = Some (tt, World h' ps').
Proof.
  intros Ha0 Ha1 Hm Hf Hr Hp Hgc. unfold destruct.
  rewrite psub_padd by (unfold PTR in *; lia).
  rewrite is_null_false by (rewrite padd_small; unfold PTR in *; lia).
  msimp. rewrite Z.eqb_refl.
  erewrite (bind_eq (recycle _ _)) by eassumption.
  msimp. rewrite Hgc. cbn [length while_pop].
  unfold gc_try_pop. msimp. rewrite Hgc. done.
Qed.

(** ** What the two release paths queue *)

(** pool::release queues the user address it was given. *)
Lemma release_queues in_ w w' :
  release in_ w = Some (tt, w') ->
  ∃ b owner q,
    heap w !! psub in_ PTR = Some (Some b) ∧
    heap w !! f_from b = Some (Some owner) ∧
    pools w !! owner = Some q ∧
    w' = World (heap w) (<[owner := with_gc q (gc q ++ [in_])]> (pools w)).
Proof.
  destruct w as [h ps]. unfold release, gc_push, bind, load, update_pool.
  intros E. cbn [heap pools] in *.
  destruct (h !! psub in_ PTR) as [[b|]|];
    cbn [heap pools] in E; try discriminate E.
  destruct (h !! f_from b) as [[owner|]|] eqn:Hf;
    cbn [heap pools] in E; try discriminate E.
  destruct (ps !! owner) as [q|] eqn:Hq;
    cbn [heap pools] in E; try discriminate E.
  injection E as <-. by exists b, owner, q.
Qed.

(** pool::destruct through a pool that is not the owner queues the raw
    chunk, one word below the user address. *)
Lemma destruct_foreign h ps this in_ b owner q p :
  in_ ≠ nullptr ->
  h !! psub in_ PTR = Some (Some b) ->
  h !! f_from b = Some (Some owner) ->
  owner ≠ this ->
  ps !! owner = Some q ->
  ps !! this = Some p -> gc p = [] ->
  destruct this in_ (World h ps) =
    Some (tt, World h (<[owner := with_gc q (gc q ++ [psub in_ PTR])]> ps)).
Proof.
  intros Hin Hb Hf Hne Hq Hp Hg. unfold destruct, gc_push.
  rewrite is_null_false by done. msimp.
  destruct (Z.eqb_spec this owner) as [->|_]; [done|].
  msimp. rewrite Hg. cbn [length while_pop].
  unfold gc_try_pop. msimp. by rewrite Hg.
Qed.

(** ** pool::~pool *)

Lemma free_all_runs bytes bs w :
  ∃ h', foldr (fun b k => free b bytes ;;; k) (ret tt) bs w
        = Some (tt, World h' (pools w)).
Proof.
  revert w. induction bs as [|b bs IH]; intros w; cbn [foldr].
  - exists (heap w). by destruct w.
  - unfold bind at 1, free at 1.
    destruct (IH (World (foldr (fun a h => delete a h) (heap w)
                           (cells (Z.to_nat (bytes / PTR)) b)) (pools w)))
      as (h' & E).
    exists h'. exact E.
Qed.

(** pool::~pool always runs to its end, and the pool is gone after it. *)
Lemma pool_dtor_runs this w p :
  pools w !! this = Some p ->
  ∃ h', pool_dtor this w = Some (tt, World h' (delete this (pools w))).
Proof.
  intros Hp. destruct w as [h ps]. cbn [pools] in Hp.
  unfold pool_dtor. rewrite (bind_the_pool _ _ _ p) by done.
  destruct (free_all_runs (ALLOCTATE p) (elements (all p)) (World h ps))
    as (h' & E).
  erewrite bind_eq by exact E. by exists h'.
Qed.

(** * Allocation failure *)

Lemma with_top_same p : with_top p (top p) = p.
Proof. by destruct p. Qed.

(** C6.  When construct has to allocate a new block ([top] is null, the
    idle queue is empty, nothing is queued for reclamation) and the
    backend answers null, construct returns null and the world, and with
    it the pool's [all] set, chain and queues, is exactly what it was. *)
Theorem construct_backend_failure (w : world) (this : Z) (p : pool) :
  pools w !! this = Some p ->
  top p = nullptr -> idle p = [] -> gc p = [] ->
  construct this nullptr w = Some (nullptr, w).
Proof.
  destruct w as [h ps]. cbn [pools]. intros Hp Ht Hi Hg.
  unfold construct, select. msimp. rewrite Ht. msimp.
  rewrite Hi. cbn [length Nat.eqb negb].
  unfold gc_try_pop. msimp. rewrite Hg. msimp.
  unfold setup, aligned_malloc, set_top. msimp.
  rewrite <- Ht, with_top_same, insert_id by done. done.
Qed.

Lemma construct_backend_failure_witness :
  construct A_ nullptr (one_pool wide_pool) = Some (nullptr, one_pool wide_pool).
Proof.
  apply (construct_backend_failure (one_pool wide_pool) A_ wide_pool);
    vm_compute; reflexivity.
Defined.

(** * Reuse order within a block *)

Ltac distinct H :=
  repeat (apply NoDup_cons in H as [? H]);
  repeat match goal with
         | Hx : _ ∉ _ :: _ |- _ => apply not_elem_of_cons in Hx as [? Hx]
         end.

Ltac side :=
  cbn [top idle all gc with_top with_idle with_all with_gc];
  first [ done | lookup_tac | unfold PTR in *; lia ].

Ltac run_construct lem :=
  erewrite (bind_eq (construct _ _));
  [| eapply construct_top; [side | side | eapply lem; side ] ].

Ltac run_destruct lem :=
  erewrite (bind_eq (destruct _ _));
  [| eapply destruct_own;
     [side | side | side | side | eapply lem; side | side | side ] ].

Section LIFO.

(** The pool [this] has [b] as its [top]; the free list of [b] starts with
    the chunks [a] and [c] and goes on with [d] (null when [c] is the last
    free chunk); [n] is the next block of the chain (null when there is
    none).  No reclaimed chunk is waiting in the pool's queue. *)
Variables (h : gmap Z (option Z)) (ps : gmap Z pool).
Variables (this b a c d n : Z) (p : pool).
Variables (r1 r2 r3 r4 : Z).

Hypothesis Hpool : ps !! this = Some p.
Hypothesis Htop : top p = b.
Hypothesis Hb : b ≠ nullptr.
Hypothesis Hgc : gc p = [].
Hypothesis Hfrom : h !! f_from b = Some (Some this).
Hypothesis Hcurr : h !! f_curr b = Some (Some a).
Hypothesis Hnext : h !! f_next b = Some (Some n).
Hypothesis Hprev : is_Some (h !! f_prev b).
Hypothesis Ha : h !! a = Some (Some b).
Hypothesis Han : h !! padd a PTR = Some (Some c).
Hypothesis Hc : h !! c = Some (Some b).
Hypothesis Hcn : h !! padd c PTR = Some (Some d).
Hypothesis Hlink : n ≠ nullptr -> h !! f_prev n = Some (Some b).
Hypothesis Harange : 0 < a ∧ a + PTR < SPACE.
Hypothesis Hcrange : 0 < c ∧ c + PTR < SPACE.
Hypothesis Hsep :
  NoDup [f_from b; f_curr b; f_next b; f_prev b; a; padd a PTR; c; padd c PTR].
Hypothesis Hsepn :
  n ≠ nullptr ->
  f_prev n ∉ [f_from b; f_curr b; f_next b; f_prev b; a; padd a PTR; c; padd c PTR].

(** C5 (as amended).  Chunks A then B are taken by construct from a block
    with at least two free slots, then B and after it A are destructed by
    the same pool with nothing in between: the next construct returns A's
    former address and the one after it B's, the free list being a stack. *)
Theorem lifo_reuse :
  padd a PTR ≠ padd c PTR ∧
  ∃ w', lifo_scenario this r1 r2 r3 r4 (World h ps) =
        Some ((padd a PTR, padd c PTR, padd a PTR, padd c PTR), w').
Proof.
  unfold nullptr in *.
  destruct Harange, Hcrange. distinct Hsep. subst b.
  split; [done|].
  assert (a ≠ 0) by lia. assert (c ≠ 0) by lia.
  unfold lifo_scenario.
  run_construct take_partial.
  destruct (decide (d = 0)) as [->|Hd].
  - destruct (decide (n = 0)) as [->|Hn].
    + run_construct take_last_alone.
      run_destruct recycle_full_alone.
      run_destruct recycle_partial.
      run_construct take_partial.
      run_construct take_last_alone.
      eexists. reflexivity.
    + pose proof (Hlink Hn) as Hl. pose proof (Hsepn Hn) as Hs.
      repeat (apply not_elem_of_cons in Hs as [? Hs]).
      run_construct take_last_linked.
      run_destruct recycle_full_linked.
      run_destruct recycle_partial.
      run_construct take_partial.
      run_construct take_last_linked.
      eexists. reflexivity.
  - run_construct take_partial.
    run_destruct recycle_partial.
    run_destruct recycle_partial.
    run_construct take_partial.
    run_construct take_partial.
    eexists. reflexivity.
Qed.

End LIFO.

Lemma lifo_reuse_witness :
  padd 4152 PTR ≠ padd 4216 PTR ∧
  ∃ w', lifo_scenario A_ 0 0 0 0 (World (heap warm_world) (pools warm_world)) =
        Some ((padd 4152 PTR, padd 4216 PTR, padd 4152 PTR, padd 4216 PTR), w').
Proof.
  eapply (lifo_reuse (heap warm_world) (pools warm_world) A_ 4096 4152 4216 0 0).
  - vm_compute. reflexivity.
  - vm_compute. reflexivity.
  - discriminate.
  - vm_compute. reflexivity.
  - vm_compute. reflexivity.
  - vm_compute. reflexivity.
  - vm_compute. reflexivity.
  - vm_compute. eexists. reflexivity.
  - vm_compute. reflexivity.
  - vm_compute. reflexivity.
  - vm_compute. reflexivity.
  - vm_compute. reflexivity.
  - intros N. exfalso. apply N. reflexivity.
  - unfold PTR, SPACE. lia.
  - unfold PTR, SPACE. lia.
  - apply (bool_decide_unpack _). vm_compute. exact I.
  - intros N. exfalso. apply N. reflexivity.
Defined.

(** C5, as the claim words it: the construct after "destruct B, destruct A"
    hands out B's former address first.  On the block of [warm_world] it
    hands out A's. *)
Lemma lifo_claimed_order_fails :
  ¬ (∀ A B X Y,
       result (lifo_scenario A_ 0 0 0 0) warm_world = Some (A, B, X, Y) ->
       X = B ∧ Y = A).
Proof.
  intros H.
  destruct (H 4160 4224 4160 4224) as [E _]; [vm_compute; reflexivity|].
  discriminate E.
Qed.

(** * Null arguments *)

Lemma destruct_null this w : destruct this nullptr w = Some (tt, w).
Proof. done. Qed.

Lemma release_changes_queue in_ w : release in_ w ≠ Some (tt, w).
Proof.
  destruct w as [h ps]. unfold release, gc_push, bind, load, update_pool.
  intros E. cbn [heap pools] in E.
  destruct (h !! psub in_ PTR) as [[b|]|];
    cbn [heap pools] in E; try discriminate E.
  destruct (h !! f_from b) as [[parent|]|];
    cbn [heap pools] in E; try discriminate E.
  destruct (ps !! parent) as [q|] eqn:Hq;
    cbn [heap pools] in E; try discriminate E.
  injection E as E.
  assert (Hl : (<[parent := with_gc q (gc q ++ [in_])]> ps) !! parent = Some q)
    by (by rewrite E).
  rewrite lookup_insert_eq in Hl. injection Hl as Hl.
  apply (f_equal gc) in Hl. cbn in Hl.
  apply (f_equal length) in Hl. rewrite length_app in Hl. cbn in Hl. lia.
Qed.

(** C4.  A null pointer given to destruct or to block::set leaves the
    world as it is.  Given to release, which has no such guard, it never
    does: release loads the word in front of the pointer, so it faults
    where that word is not mapped (as in a pool that has no block yet), and
    where it is mapped the pointer is queued on whatever pool the word
    leads to. *)
Theorem release_null_not_noop :
  (∀ this w, destruct this nullptr w = Some (tt, w)) ∧
  (∀ b w, set b nullptr w = Some (tt, w)) ∧
  (∀ w, release nullptr w ≠ Some (tt, w)) ∧
  release nullptr (one_pool wide_pool) = None ∧
  release nullptr warm_world = None.
Proof.
  split; [apply destruct_null|].
  split; [apply set_null|].
  split; [apply release_changes_queue|].
  split; vm_compute; reflexivity.
Qed.

(** * The configurations *)

Lemma doc_pool_constants :
  (ALIGNMENT doc_pool, SIZE doc_pool, COUNT doc_pool, ALLOCTATE doc_pool)
  = (32, 128, 2, 320).
Proof. vm_compute. reflexivity. Qed.

Lemma wide_pool_constants :
  (ALIGNMENT wide_pool, SIZE wide_pool, COUNT wide_pool, ALLOCTATE wide_pool)
  = (64, 64, 2, 192).
Proof. vm_compute. reflexivity. Qed.

Lemma narrow_pool_constants :
  (ALIGNMENT narrow_pool, SIZE narrow_pool, COUNT narrow_pool,
   ALLOCTATE narrow_pool) = (16, 16, 2, 80).
Proof. vm_compute. reflexivity. Qed.

(** Where initialize puts the first chunk, against the end of the header
    that the constructor budgets for in ALLOCTATE. *)
Lemma first_chunk_position self alignment :
  0 <= self -> 8 <= alignment -> self + alignment < SPACE ->
  psub (padd self alignment) PTR = self + alignment - 8.
Proof.
  intros. unfold psub, padd, PTR.
  rewrite Zminus_mod_idemp_l. apply Z.mod_small. unfold SPACE in *. lia.
Qed.

(** With an alignment of 32 the first chunk's leading word is the block's
    own [prev] field; with 16 it is [curr]; with 8 it is [from].  From 64
    on it lies behind the header. *)
Lemma first_chunk_overlays_header self :
  0 <= self -> self + 64 < SPACE ->
  psub (padd self 32) PTR = f_prev self ∧
  psub (padd self 16) PTR = f_curr self ∧
  psub (padd self 8) PTR = f_from self ∧
  psub (padd self 64) PTR = self + 56.
Proof.
  intros H0 H1. unfold SPACE in H1.
  rewrite !first_chunk_position by (unfold SPACE; lia).
  unfold f_prev, f_curr, f_from.
  rewrite !padd_small by (unfold SPACE; lia).
  repeat split; lia.
Qed.

(** The double issue of the alignment-16 layout does not depend on the
    granularity that config::DEF_CACHE imposes on the count. *)
Lemma double_issue_any_granularity :
  Forall (fun g => result (construct_twice A_ 4096 nullptr)
                          (one_pool (pool_ctor g 8 2 16))
                   = Some (4104, 4104))
         [1; 2; 4; 8; 16; 32; 64].
Proof. repeat constructor; vm_compute; reflexivity. Qed.

(** ** The alignment is a power of two *)

Lemma boundary_from_pow2 fuel j n :
  0 <= j ->
  ∃ k, j <= k <= j + Z.of_nat fuel ∧ boundary_from fuel (2 ^ j) n = 2 ^ k.
Proof.
  revert j. induction fuel as [|fuel IH]; intros j Hj; cbn [boundary_from].
  - exists j. split; [lia|done].
  - destruct (n <=? 2 ^ j).
    + exists j. split; [lia|done].
    + replace (2 * 2 ^ j) with (2 ^ (j + 1)) by (rewrite Z.pow_add_r; lia).
      destruct (IH (j + 1)) as (k & Hk & E); [lia|].
      exists k. split; [lia|done].
Qed.

Lemma boundary_pow2 n : ∃ k, 0 <= k <= 63 ∧ boundary n = 2 ^ k.
Proof.
  destruct (boundary_from_pow2 63 0 n) as (k & Hk & E); [lia|].
  exists k. split; [lia|done].
Qed.

Lemma pow2_not_40 k : 0 <= k -> 2 ^ k ≠ 40.
Proof.
  intros Hk E. destruct (Z_le_gt_dec k 5).
  - assert (2 ^ k <= 2 ^ 5) by (apply Z.pow_le_mono_r; lia). lia.
  - assert (2 ^ 6 <= 2 ^ k) by (apply Z.pow_le_mono_r; lia). lia.
Qed.

(** ** The idle test of recycle *)

(** The address recycle compares [curr] with, the end of struct block, is
    never where initialize puts the first chunk, whatever the pool's
    parameters and wherever the block lies. *)
Lemma idle_test_misses_first_chunk DEF_CACHE chunk count align self :
  psub (padd self (ALIGNMENT (pool_ctor DEF_CACHE chunk count align))) PTR
  ≠ padd self SIZEOF_BLOCK.
Proof.
  cbn [pool_ctor ALIGNMENT].
  destruct (boundary_pow2 align) as (k & Hk & ->).
  pose proof (pow2_not_40 k ltac:(lia)) as N.
  assert (0 < 2 ^ k <= 2 ^ 63) as Hr.
  { split; [apply Z.pow_pos_nonneg; lia|apply Z.pow_le_mono_r; lia]. }
  unfold psub, padd, PTR, SIZEOF_BLOCK, SPACE. rewrite Zminus_mod_idemp_l.
  intros E.
  pose proof (Z.div_mod (self + 2 ^ k - 8) (2 ^ 64) ltac:(lia)) as D1.
  pose proof (Z.div_mod (self + 32) (2 ^ 64) ltac:(lia)) as D2.
  rewrite E in D1.
  assert (2 ^ 63 < 2 ^ 64) by (apply Z.pow_lt_mono_r; lia).
  nia.
Qed.

Lemma load_inv a w v w' :
  load a w = Some (v, w') -> w' = w ∧ heap w !! a = Some (Some v).
Proof.
  unfold load. destruct (heap w !! a) as [[u|]|]; try discriminate.
  intros E. injection E as <- <-. done.
Qed.

Lemma store_inv a v w w' :
  store a v w = Some (tt, w') ->
  w' = World (<[a := Some v]> (heap w)) (pools w).
Proof.
  unfold store. destruct (heap w !! a); try discriminate.
  intros E. by injection E as <-.
Qed.

(** Right after [set] the block's [curr] is the chunk just pushed. *)
Lemma set_then_curr b x w w' :
  x ≠ nullptr -> set b x w = Some (tt, w') ->
  heap w' !! f_curr b = Some (Some x).
Proof.
  intros Hx E. unfold set in E. rewrite is_null_false in E by done.
  apply bind_inv in E as (c & w1 & E1 & E).
  apply bind_inv in E as ([] & w2 & E2 & E).
  apply store_inv in E as ->. cbn. by rewrite lookup_insert_eq.
Qed.

(** X2.  In every world, for every pool built by pool::pool: when recycle
    takes back the first chunk of a block, so that [curr] is the
    first-chunk address again, the idle queue stays as it is. *)
Lemma recycle_first_chunk_not_parked
    DEF_CACHE chunk count align this p x parent w w' :
  pools w !! this = Some p ->
  ALIGNMENT p = ALIGNMENT (pool_ctor DEF_CACHE chunk count align) ->
  heap w !! x = Some (Some parent) ->
  x = psub (padd parent (ALIGNMENT p)) PTR -> x ≠ nullptr ->
  recycle this x w = Some (tt, w') ->
  idle <$> pools w' !! this = Some (idle p).
Proof.
  intros Hp HA Hx Hfirst Hx0 E. unfold recycle in E.
  apply bind_inv in E as (parent' & w1 & E1 & E).
  apply load_inv in E1 as [-> E1]. rewrite Hx in E1. injection E1 as <-.
  apply bind_inv in E as (c & w2 & E2 & E).
  apply load_inv in E2 as [-> _].
  apply bind_inv in E as ([] & w3 & E3 & E).
  apply bind_inv in E as ([] & w4 & E4 & E).
  apply bind_inv in E as (c' & w5 & E5 & E).
  apply load_inv in E5 as [-> E5].
  rewrite (set_then_curr _ _ _ _ Hx0 E4) in E5. injection E5 as <-.
  destruct (Z.eqb_spec x (padd parent SIZEOF_BLOCK)) as [Eq|_].
  { exfalso. rewrite Hfirst, HA in Eq.
    by apply idle_test_misses_first_chunk in Eq. }
  injection E as <-.
  assert (H3 : same_idle (pools w) (pools w3)).
  { eapply (preserves_when same_idle); [|exact E3].
    unfold set_top. frame. by eapply same_idle_insert. }
  assert (H4 : same_idle (pools w3) (pools w4)).
  { by eapply (preserves_set same_idle). }
  rewrite (H4 this), (H3 this), Hp. done.
Qed.

(** * Fresh blocks at any address *)

Lemma psub_small a n : 0 <= a - n < SPACE -> psub a n = a - n.
Proof. unfold psub. apply Z.mod_small. Qed.

(** Every word of a freshly allocated region is mapped. *)
Lemma cells_mapped n b (h : gmap Z (option Z)) k :
  0 <= b -> b + 8 * Z.of_nat n <= SPACE ->
  b <= k < b + 8 * Z.of_nat n -> (k - b) mod 8 = 0 ->
  is_Some (foldr (fun a h => <[a := None]> h) h (cells n b) !! k).
Proof.
  revert b. induction n as [|n IH]; intros b Hb0 Hb1 Hk Hm; [lia|].
  cbn [cells foldr]. rewrite lookup_insert_is_Some'.
  destruct (decide (b = k)) as [|Hne]; [by left|right].
  assert (b + 8 <= k) as Hk8.
  { pose proof (Z.div_mod (k - b) 8 ltac:(lia)). lia. }
  rewrite padd_small by (unfold PTR; lia). unfold PTR.
  apply IH; [lia|lia|lia|].
  replace (k - (b + 8)) with ((k - b) + (-1) * 8) by lia.
  by rewrite Z.mod_add.
Qed.

(** Symbolic execution over cells at linear offsets of a base address:
    pointer arithmetic is brought to [base + offset] and lookups through
    the stores made so far are settled by arithmetic. *)
Ltac zlookup :=
  repeat (rewrite lookup_insert;
          destruct (decide _) as [?|?];
          [try (exfalso; lia)|try (exfalso; lia)]);
  try reflexivity; try eauto.

Ltac zlookup_tac :=
  lazymatch goal with
  | |- is_Some _ =>
      repeat (rewrite lookup_insert_is_Some'; first [left; lia | right]);
      first [ by eauto
            | apply cells_mapped; unfold SPACE;
              first [ lia | Z.div_mod_to_equations; lia ] ]
  | |- _ => zlookup
  end.

Ltac norm_ptr :=
  repeat match goal with
         | |- context [padd ?a ?n] =>
             rewrite (padd_small a n) by (unfold SPACE, PTR; lia)
         | |- context [psub ?a ?n] =>
             rewrite (psub_small a n) by (unfold SPACE, PTR; lia)
         end.

Ltac zstep :=
  first
    [ rewrite bind_assoc
    | rewrite bind_ret
    | erewrite bind_load by zlookup_tac
    | erewrite bind_store by zlookup_tac
    | erewrite bind_the_pool by lookup_tac
    | erewrite bind_update_pool by lookup_tac ].

Ltac zsimp :=
  repeat first
    [ zstep
    | rewrite is_null_false by (unfold nullptr; lia)
    | progress change (is_null nullptr) with true
    | progress change (is_null 0) with true
    | rewrite Z.eqb_refl
    | match goal with
      | |- context [?x =? ?y] => rewrite (proj2 (Z.eqb_neq x y)) by lia
      end
    | progress cbn [negb top idle all gc ALIGNMENT SIZE COUNT ALLOCTATE
                    with_top with_idle with_all with_gc length Nat.eqb
                    while_pop]
    | progress cbv beta iota ].

Ltac zrun :=
  repeat (progress (unfold PTR, SIZEOF_BLOCK; norm_ptr; zsimp)).

Section Narrow.

(** A pool of alignment 16 with nothing allocated, and a backend that
    answers with a fresh block at [b]. *)
Variables (h : gmap Z (option Z)) (ps : gmap Z pool) (this b : Z).
Variable (all0 : gset Z).

Hypothesis Hpool : ps !! this = Some (Pool 16 16 2 80 nullptr [] all0 []).
Hypothesis Hb : 0 < b ∧ b + 80 <= SPACE.
Hypothesis Haligned : b mod 16 = 0.
Hypothesis Hfresh : forallb (unmapped h) (cells 10 b) = true.

(** The first construct returns the address of the block's [curr] field,
    and leaves a free list that is the block pointing at itself. *)
Lemma narrow_first_construct :
  ∃ h' ps',
    construct this b (World h ps) = Some (b + 8, World h' ps') ∧
    ps' !! this = Some (Pool 16 16 2 80 b [] ({[b]} ∪ all0) []) ∧
    h' !! (b + 8) = Some (Some b).
Proof.
  destruct Hb as [Hb0 Hb1]. unfold SPACE in Hb1.
  unfold construct, select.
  zsimp. unfold gc_try_pop. zsimp. unfold setup. zsimp.
  unfold aligned_malloc. rewrite is_null_false by lia.
  change (Z.to_nat (80 / PTR)) with 10%nat.
  unfold bind at 1. cbn [heap pools]. rewrite Haligned, Hfresh.
  cbn [Z.eqb andb].
  rewrite is_null_false by lia.
  unfold initialize, set_top, f_from, f_curr, f_next, f_prev.
  change (Z.to_nat ((2 - 1) mod SPACE)) with 1%nat.
  cbn [initialize_loop].
  zrun.
  unfold take_from_top, get, f_curr.
  zrun.
  eexists _, _. split; [reflexivity|]. split; [lookup_tac|]. zlookup.
Qed.

(** From then on every construct returns that same address and changes
    nothing. *)
Lemma narrow_next_construct h' ps' reply all1 :
  ps' !! this = Some (Pool 16 16 2 80 b [] all1 []) ->
  h' !! (b + 8) = Some (Some b) ->
  construct this reply (World h' ps') = Some (b + 8, World h' ps').
Proof.
  intros Hp Hc. destruct Hb as [Hb0 Hb1]. unfold SPACE in Hb1.
  unfold construct, select. zsimp.
  unfold take_from_top, get, f_curr.
  zrun.
  rewrite insert_id by done. done.
Qed.

Lemma narrow_double_issue reply :
  result (construct_twice this b reply) (World h ps) = Some (b + 8, b + 8).
Proof.
  destruct narrow_first_construct as (h' & ps' & E1 & Hp & Hc).
  unfold result, construct_twice.
  erewrite bind_eq by exact E1.
  erewrite bind_eq by (by eapply narrow_next_construct).
  done.
Qed.

Lemma narrow_misaligned :
  result (construct this b) (World h ps) = Some (b + 8) ∧
  (b + 8) mod 16 = 8 ∧ b + 8 = f_curr b.
Proof.
  destruct narrow_first_construct as (h' & ps' & E1 & _).
  destruct Hb as [Hb0 Hb1]. unfold SPACE in Hb1.
  split; [unfold result; by rewrite E1|].
  split; [Z.div_mod_to_equations; lia|].
  unfold f_curr. rewrite padd_small; unfold SPACE; lia.
Qed.

End Narrow.

Section DocLayout.

(** The pool of pool.hh's example with nothing allocated, and a backend
    that answers with a fresh block at [b]. *)
Variables (h : gmap Z (option Z)) (ps : gmap Z pool) (this b reply : Z).
Variable (all0 : gset Z).

Hypothesis Hpool : ps !! this = Some (Pool 32 128 2 320 nullptr [] all0 []).
Hypothesis Hb : 0 < b ∧ b + 320 <= SPACE.
Hypothesis Haligned : b mod 32 = 0.
Hypothesis Hfresh : forallb (unmapped h) (cells 40 b) = true.

(** The word in front of the first chunk holds the block address after
    the construct, and null once the second chunk has been taken and given
    back. *)
Lemma doc_backref_lost :
  result (backref_scenario this b reply) (World h ps)
  = Some (b + 32, b, nullptr).
Proof.
  destruct Hb as [Hb0 Hb1]. unfold SPACE in Hb1.
  unfold result, backref_scenario, construct, select.
  zsimp. unfold gc_try_pop. zsimp. unfold setup. zsimp.
  unfold aligned_malloc. rewrite is_null_false by lia.
  change (Z.to_nat (320 / PTR)) with 40%nat.
  unfold bind at 1. cbn [heap pools]. rewrite Haligned, Hfresh.
  cbn [Z.eqb andb].
  rewrite is_null_false by lia.
  unfold initialize, set_top, f_from, f_curr, f_next, f_prev.
  change (Z.to_nat ((2 - 1) mod SPACE)) with 1%nat.
  cbn [initialize_loop].
  zrun.
  unfold take_from_top, get, set_top, f_curr, f_next, f_prev.
  zrun.
  unfold destruct, recycle, when, set, set_top, gc_try_pop,
    f_from, f_curr, f_next, f_prev.
  zrun. unfold gc_try_pop. zrun.
  cbn. do 3 f_equal. lia.
Qed.

End DocLayout.

(** * pool::release and the reclamation queue *)

Lemma release_queues_argument in_ w :
  match release in_ w with
  | Some (_, w') =>
      ∃ owner q, pools w !! owner = Some q ∧
                 pools w' = <[owner := with_gc q (gc q ++ [in_])]> (pools w)
  | None => True
  end.
Proof.
  destruct (release in_ w) as [[[] w']|] eqn:E; [|done].
  apply release_queues in E as (b & owner & q & _ & _ & Hq & ->).
  by exists owner, q.
Qed.

(** C1.  Whenever pool::release runs to its end, what it has put on the
    owner's queue is the user address it was given, not the raw chunk one
    word below.  So with chunk X = 4160 of pool A (raw chunk 4152): the
    queue holds 4160; after A's cleanup the next constructs hand out 4224
    and then 4168, an address inside X's old storage, and then nothing;
    after A's destruct of another chunk instead, they hand out 4168, 4224
    and nothing.  X itself is never handed out again. *)
Theorem release_queues_user_pointer :
  (∀ in_ w,
     match release in_ w with
     | Some (_, w') =>
         ∃ owner q, pools w !! owner = Some q ∧
                    pools w' = <[owner := with_gc q (gc q ++ [in_])]> (pools w)
     | None => True
     end) ∧
  psub 4160 PTR = 4152 ∧
  result release_then_cleanup (one_pool wide_pool)
    = Some (4160, [4160], 4224, 4168, nullptr) ∧
  result release_then_destruct (one_pool wide_pool)
    = Some (4160, 4224, 4168, 4224, nullptr).
Proof.
  split; [apply release_queues_argument|].
  vm_compute. repeat split; reflexivity.
Qed.

(** * Idle blocks *)

(** C2.  For no pool that pool::pool builds and no block address does
    the first chunk, where initialize puts it, lie at the address recycle
    compares [curr] with.  So with block 8192, not [top], all its chunks
    free again and [curr] its first chunk 8248, against 8192 + 32 = 8224 in
    the test: the block is not parked in the idle queue, cleanup leaves it
    in [all], and a later construct hands out its memory (8256). *)
Theorem idle_block_never_parked :
  (∀ DEF_CACHE chunk count align self,
     psub (padd self (ALIGNMENT (pool_ctor DEF_CACHE chunk count align))) PTR
     ≠ padd self SIZEOF_BLOCK) ∧
  psub (padd 8192 (ALIGNMENT wide_pool)) PTR = 8248 ∧
  padd 8192 SIZEOF_BLOCK = 8224 ∧
  result idle_scenario (one_pool wide_pool)
    = Some (8256, 4096, 8248, [], true, 4160, 8256).
Proof.
  split; [apply idle_test_misses_first_chunk|].
  vm_compute. repeat split; reflexivity.
Qed.

(** * cleanup *)

(** C3.  cleanup never changes [top], of any pool, so it never splices a
    block back into the chain.  Block 4096 of pool A is full and off the
    chain when pool B destructs its chunk 4224, which queues the raw chunk
    4216 on A.  A's cleanup pushes the chunk on the block's free list
    ([curr] = 4216) by block::set alone: [top] stays null.  The next
    construct of A cannot see the free chunk: it returns null when the
    backend fails, and a chunk of a new block otherwise. *)
Theorem cleanup_leaves_block_unlinked :
  (∀ this that, preserves (same_top this) (cleanup that)) ∧
  result (foreign_free_then_cleanup nullptr) (two_pools wide_pool)
    = Some (4224, [4216], nullptr, 4216, nullptr) ∧
  result (foreign_free_then_cleanup 8192) (two_pools wide_pool)
    = Some (4224, [4216], nullptr, 4216, 8256).
Proof.
  split; [apply cleanup_same_top|].
  vm_compute. repeat split; reflexivity.
Qed.

(** * Block layout *)

(** C7.  With an alignment of 16 the first chunk's leading word is the
    block's [curr] field, which initialize then overwrites with the block
    address: the free list is the block pointing at itself, and two
    constructs in a row return the same address, wherever the backend puts
    the block. *)
Theorem double_issue :
  (∀ h ps this b all0 reply,
     ps !! this = Some (Pool 16 16 2 80 nullptr [] all0 []) ->
     0 < b ∧ b + 80 <= SPACE -> b mod 16 = 0 ->
     forallb (unmapped h) (cells 10 b) = true ->
     result (construct_twice this b reply) (World h ps)
     = Some (b + 8, b + 8)) ∧
  result (construct_twice A_ 4096 nullptr) (one_pool narrow_pool)
  = Some (4104, 4104).
Proof.
  split; [intros; eapply narrow_double_issue; eassumption|].
  vm_compute. reflexivity.
Qed.

(** C8.  In the configuration of pool.hh's example the word in front of
    the first chunk handed out is the block's [prev] field.  It holds the
    block address at first; recycle of the second chunk splices the block
    back and stores null in [prev], wherever the backend puts the block.
    With the block at 4096: the first chunk's back-reference is gone while
    the chunk (4128) is still in use, and its destruct faults.  With an
    alignment of 64, where the chunks lie behind the header, a chunk that
    went through pool::release makes construct hand out 4168, and the word
    in front of that is 4216, a stale free-list link and not the block
    4096. *)
Theorem backref_overwritten :
  (∀ h ps this b reply all0,
     ps !! this = Some (Pool 32 128 2 320 nullptr [] all0 []) ->
     0 < b ∧ b + 320 <= SPACE -> b mod 32 = 0 ->
     forallb (unmapped h) (cells 40 b) = true ->
     result (backref_scenario this b reply) (World h ps)
     = Some (b + 32, b, nullptr)) ∧
  result (backref_scenario A_ 4096 nullptr) (one_pool doc_pool)
    = Some (4128, 4096, nullptr) ∧
  result (r <- backref_scenario A_ 4096 nullptr ;; destruct A_ (r.1.1))
         (one_pool doc_pool) = None ∧
  result reissue_after_release (one_pool wide_pool) = Some (4168, 4216).
Proof.
  split; [intros; eapply doc_backref_lost; eassumption|].
  vm_compute. repeat split; reflexivity.
Qed.

(** C9.  With an alignment of 16 the first construct returns the block
    address plus 8, wherever the backend puts the block: not a multiple of
    16, and the address of the block's own [curr] field, inside the header
    (4104 for a block at 4096).  With an alignment of 64, a chunk that went
    through pool::release makes construct hand out 4168, which is not a
    multiple of 64. *)
Theorem misaligned_first_chunk :
  (∀ h ps this b all0,
     ps !! this = Some (Pool 16 16 2 80 nullptr [] all0 []) ->
     0 < b ∧ b + 80 <= SPACE -> b mod 16 = 0 ->
     forallb (unmapped h) (cells 10 b) = true ->
     result (construct this b) (World h ps) = Some (b + 8) ∧
     (b + 8) mod 16 = 8 ∧ b + 8 = f_curr b) ∧
  ALIGNMENT narrow_pool = 16 ∧
  result (construct A_ 4096) (one_pool narrow_pool) = Some 4104 ∧
  4104 mod ALIGNMENT narrow_pool = 8 ∧
  f_curr 4096 = 4104 ∧
  ALIGNMENT wide_pool = 64 ∧
  fst <$> result reissue_after_release (one_pool wide_pool) = Some 4168 ∧
  4168 mod ALIGNMENT wide_pool = 8.
Proof.
  split; [intros; eapply narrow_misaligned; eassumption|].
  vm_compute. repeat split; reflexivity.
Qed.

(** * The available chain *)

(** C10.  construct does not guard the chunk it gets from [top]: where
    [curr] of [top] is null it returns null + 8.  Such a [top] is reached:
    after a release of chunk 4160 and the owner's destruct of the two other
    chunks, [top] is 4096, its successor in the chain is 4216 (a chunk
    address taken for a block) and that successor's [curr] is null.  Two
    constructs later [top] is that entry, get returns null on it, and
    construct returns 8. *)
Theorem get_returns_null :
  (∀ h ps this p n reply,
     ps !! this = Some p -> top p ≠ nullptr ->
     h !! f_curr (top p) = Some (Some nullptr) ->
     h !! f_next (top p) = Some (Some n) ->
     (n ≠ nullptr ->
      ∃ pv, h !! f_prev n = Some (Some pv) ∧ is_Some (h !! f_next pv)) ->
     ∃ w', construct this reply (World h ps) = Some (padd nullptr PTR, w')) ∧
  padd nullptr PTR = 8 ∧
  result null_chunk_scenario (one_pool wide_pool)
    = Some (4096, 4216, nullptr, 4224, 8).
Proof.
  split; [apply construct_null_chunk|].
  vm_compute. repeat split; reflexivity.
Qed.

(** * What the operations leave alone *)

Section MoreFrame.

Context (R : relation (gmap Z pool)) `{!Reflexive R, !Transitive R}.

Lemma preserves_aligned_malloc reply bytes alignment :
  preserves R (aligned_malloc reply bytes alignment).
Proof.
  unfold aligned_malloc. destruct (is_null reply); [by apply preserves_ret|].
  intros w x w' E. destruct (_ && _); [|discriminate E].
  injection E as _ <-. reflexivity.
Qed.

Lemma preserves_initialize_loop n self parent cursor :
  preserves R (initialize_loop n self parent cursor).
Proof.
  revert cursor. induction n as [|n IH]; intros cursor; cbn [initialize_loop].
  - by apply preserves_ret.
  - frame. apply IH.
Qed.

Lemma preserves_initialize self parent count alignment :
  preserves R (initialize self parent count alignment).
Proof. unfold initialize. frame. apply preserves_initialize_loop. Qed.

Lemma while_pop_preserves this body n :
  preserves R (gc_try_pop this) ->
  (∀ x, preserves R (body x)) ->
  preserves R (while_pop n this body).
Proof.
  intros Hpop Hbody. induction n as [|n IH]; cbn [while_pop]; frame;
    first [ apply Hpop | apply Hbody | apply IH ].
Qed.

End MoreFrame.

Global Instance others_same_refl this : Reflexive (others_same this).
Proof. by intros ps q. Qed.

Global Instance others_same_trans this : Transitive (others_same this).
Proof. intros a b c H1 H2 q Hq. by rewrite H2, H1. Qed.

Global Instance foreign_chains_same_refl this :
  Reflexive (foreign_chains_same this).
Proof. by intros ps q. Qed.

Global Instance foreign_chains_same_trans this :
  Transitive (foreign_chains_same this).
Proof. intros a b c H1 H2 q Hq. by rewrite H2, H1. Qed.

Global Instance all_grows_refl : Reflexive all_grows.
Proof. intros ps q p Hp. by exists p. Qed.

Global Instance all_grows_trans : Transitive all_grows.
Proof.
  intros a b c H1 H2 q p Hp.
  destruct (H1 q p Hp) as (p1 & Hp1 & S1).
  destruct (H2 q p1 Hp1) as (p2 & Hp2 & S2).
  exists p2. split; [done|]. by etransitivity.
Qed.

Global Instance same_but_queues_refl : Reflexive same_but_queues.
Proof. by intros ps q. Qed.

Global Instance same_but_queues_trans : Transitive same_but_queues.
Proof. intros a b c H1 H2 q. by rewrite H2, H1. Qed.

Lemma others_same_insert ps this p' : others_same this ps (<[this := p']> ps).
Proof. intros q Hq. by rewrite lookup_insert_ne. Qed.

Lemma foreign_chains_same_insert ps this q p p' :
  ps !! q = Some p -> (q ≠ this -> chain_of p' = chain_of p) ->
  foreign_chains_same this ps (<[q := p']> ps).
Proof.
  intros Hp Hf r Hr. destruct (decide (q = r)) as [->|].
  - rewrite lookup_insert_eq, Hp. cbn. by rewrite Hf.
  - by rewrite lookup_insert_ne.
Qed.

Lemma all_grows_insert ps q p p' :
  ps !! q = Some p -> all p ⊆ all p' -> all_grows ps (<[q := p']> ps).
Proof.
  intros Hp Hs r pr Hr. destruct (decide (q = r)) as [->|].
  - rewrite lookup_insert_eq. exists p'. split; [done|].
    rewrite Hp in Hr. by injection Hr as <-.
  - rewrite lookup_insert_ne by done. by exists pr.
Qed.

Lemma same_but_queues_insert ps q p p' :
  ps !! q = Some p -> sans_gc p' = sans_gc p ->
  same_but_queues ps (<[q := p']> ps).
Proof.
  intros Hp Hf r. destruct (decide (q = r)) as [->|].
  - rewrite lookup_insert_eq, Hp. cbn. by rewrite Hf.
  - by rewrite lookup_insert_ne.
Qed.

Ltac frame_more_step :=
  lazymatch goal with
  | |- preserves _ (aligned_malloc _ _ _) => apply preserves_aligned_malloc
  | |- preserves _ (initialize _ _ _ _) => apply preserves_initialize
  | |- preserves _ (while_pop _ _ _) => apply while_pop_preserves
  | |- _ => frame_step
  end.

Ltac frame_all :=
  repeat (progress
            (unfold construct, destruct, cleanup, select, setup, take_from_top,
               recycle, release, reclaim, set_top, idle_push, idle_fifo,
               gc_push, gc_try_pop;
             repeat frame_more_step)).

Lemma trim_others_same this n : preserves (others_same this) (trim n this).
Proof.
  induction n as [|n IH]; cbn [trim]; frame_all;
    first [ apply IH | apply others_same_insert ].
Qed.

(** X3.  construct, cleanup and recycle through a pool change no other
    pool object: whatever they do to [top], the idle queue, [all] and the
    queue, they do to their own. *)
Theorem own_pool_only this :
  (∀ reply, preserves (others_same this) (construct this reply)) ∧
  preserves (others_same this) (cleanup this) ∧
  (∀ x, preserves (others_same this) (recycle this x)).
Proof.
  split; [|split].
  - intros reply. frame_all; apply others_same_insert.
  - frame_all; first [ apply trim_others_same | apply others_same_insert ].
  - intros x. frame_all; apply others_same_insert.
Qed.

(** X4.  destruct through a pool leaves the [top], the idle queue and
    the [all] set of every other pool as they are: all it does to another
    pool is to push on its queue. *)
Theorem destruct_foreign_chains this x :
  preserves (foreign_chains_same this) (destruct this x).
Proof. frame_all; by eapply foreign_chains_same_insert. Qed.

(** X5.  Neither construct nor destruct nor release ever takes a block
    out of the [all] set of any pool: blocks are given up by cleanup and by
    the destructor alone. *)
Theorem blocks_never_dropped :
  (∀ this reply, preserves all_grows (construct this reply)) ∧
  (∀ this x, preserves all_grows (destruct this x)) ∧
  (∀ x, preserves all_grows (release x)).
Proof.
  split; [|split].
  - intros this reply.
    frame_all; eapply all_grows_insert; try eassumption; cbn;
      first [ done | apply union_subseteq_r ].
  - intros this x. frame_all; by eapply all_grows_insert.
  - intros x. frame_all. by eapply all_grows_insert.
Qed.

(** * Blocks laid out behind their header *)

Lemma initialize_loop_layout n :
  ∀ (h : gmap Z (option Z)) ps self parent cursor p,
  ps !! parent = Some p -> 16 <= SIZE p ->
  0 <= cursor -> cursor + Z.of_nat n * SIZE p + 16 <= SPACE ->
  (∀ i, 0 <= i < Z.of_nat n ->
        is_Some (h !! (cursor + i * SIZE p)) ∧
        is_Some (h !! (cursor + i * SIZE p + 8))) ->
  ∃ h',
    initialize_loop n self parent cursor (World h ps)
    = Some (cursor + Z.of_nat n * SIZE p, World h' ps) ∧
    (∀ i, 0 <= i < Z.of_nat n ->
          h' !! (cursor + i * SIZE p) = Some (Some self) ∧
          h' !! (cursor + i * SIZE p + 8)
          = Some (Some (cursor + (i + 1) * SIZE p))) ∧
    (∀ k, (∀ i, 0 <= i < Z.of_nat n ->
                k ≠ cursor + i * SIZE p ∧ k ≠ cursor + i * SIZE p + 8) ->
          h' !! k = h !! k).
Proof.
  induction n as [|n IH]; intros h ps self parent cursor p Hp Hsz Hc Hw Hm.
  - exists h. cbn [initialize_loop]. split; [|split].
    + unfold ret. do 2 f_equal. cbn. lia.
    + intros i Hi. lia.
    + done.
  - cbn [initialize_loop].
    rewrite (bind_the_pool _ _ _ p) by done.
    assert (Hsp : SPACE = 2 ^ 64) by reflexivity.
    rewrite !padd_small by (unfold PTR; lia).
    destruct (Hm 0 ltac:(lia)) as [M0 M1].
    rewrite Z.mul_0_l, Z.add_0_r in M0, M1.
    rewrite bind_store by done.
    rewrite bind_store by (rewrite lookup_insert_is_Some'; by right).
    unfold PTR.
    set (h2 := <[cursor + 8 := _]> _).
    destruct (IH h2 ps self parent (cursor + SIZE p) p Hp Hsz) as (h' & E & P1 & P2).
    { lia. }
    { lia. }
    { intros i Hi. destruct (Hm (i + 1) ltac:(lia)) as [A B].
      replace (cursor + SIZE p + i * SIZE p) with (cursor + (i + 1) * SIZE p)
        by lia.
      subst h2. rewrite !lookup_insert_is_Some'. split; right; by right. }
    exists h'. split; [|split].
    + rewrite E. do 2 f_equal. lia.
    + intros i Hi. destruct (decide (i = 0)) as [->|Hi0].
      * rewrite Z.mul_0_l, Z.add_0_r.
        rewrite !P2.
        -- subst h2. rewrite lookup_insert_ne by lia.
           rewrite lookup_insert_eq. rewrite lookup_insert_eq.
           split; [done|]. do 2 f_equal. lia.
        -- intros j Hj. nia.
        -- intros j Hj. nia.
      * destruct (P1 (i - 1) ltac:(lia)) as [A B].
        replace (cursor + SIZE p + (i - 1) * SIZE p) with (cursor + i * SIZE p)
          in A, B by lia.
        replace (i - 1 + 1) with i in B by lia.
        split; [done|]. rewrite B. do 2 f_equal. lia.
    + intros k Hk. rewrite P2.
      * destruct (Hk 0 ltac:(lia)) as [K0 K1].
        rewrite Z.mul_0_l, Z.add_0_r in K0, K1.
        subst h2. by rewrite !lookup_insert_ne.
      * intros j Hj. destruct (Hk (j + 1) ltac:(lia)) as [K0 K1].
        split; lia.
Qed.

Lemma initialize_writes h ps self parent p count alignment :
  ps !! parent = Some p -> 16 <= SIZE p ->
  1 <= count -> 40 <= alignment ->
  0 <= self -> self + alignment - 8 + count * SIZE p <= SPACE ->
  is_Some (h !! self) -> is_Some (h !! (self + 8)) ->
  is_Some (h !! (self + 16)) -> is_Some (h !! (self + 24)) ->
  (∀ i, 0 <= i < count ->
        is_Some (h !! (self + alignment - 8 + i * SIZE p)) ∧
        is_Some (h !! (self + alignment - 8 + i * SIZE p + 8))) ->
  ∃ h',
    initialize self parent count alignment (World h ps)
    = Some (tt, World h' ps) ∧
    h' !! f_from self = Some (Some parent) ∧
    h' !! f_curr self = Some (Some (self + alignment - 8)) ∧
    h' !! f_next self = Some (Some nullptr) ∧
    h' !! f_prev self = Some (Some nullptr) ∧
    (∀ i, 0 <= i < count ->
          h' !! (self + alignment - 8 + i * SIZE p) = Some (Some self)) ∧
    free_list_from h' (self + alignment - 8) (SIZE p) count 0 ∧
    (∀ k, k < self ∨ self + alignment - 8 + count * SIZE p <= k ->
          h' !! k = h !! k).
Proof.
  intros Hp Hsz Hcnt Hal Hs0 Hs1 M0 M1 M2 M3 Hm.
  assert (Hsp : SPACE = 2 ^ 64) by reflexivity.
  assert (Hcs : count * SIZE p >= count * 16) by nia.
  set (c0 := self + alignment - 8).
  unfold free_list_from, initialize, f_from, f_curr, f_next, f_prev, nullptr.
  rewrite (padd_small self alignment) by lia.
  rewrite (psub_small _ PTR) by (unfold PTR; lia).
  rewrite !padd_small by lia.
  rewrite Z.add_0_r. unfold PTR at 1. fold c0.
  rewrite (Z.mod_small (count - 1)) by nia.
  rewrite bind_store by done.
  rewrite bind_store by (rewrite !lookup_insert_is_Some'; by repeat right).
  rewrite bind_store by (rewrite !lookup_insert_is_Some'; by repeat right).
  rewrite bind_store by (rewrite !lookup_insert_is_Some'; by repeat right).
  set (h1 := <[self + 8 := _]> _).
  assert (Hfr : ∀ k, k ≠ self -> k ≠ self + 8 -> k ≠ self + 16 ->
                     k ≠ self + 24 -> h1 !! k = h !! k).
  { intros k ? ? ? ?. subst h1. by rewrite !lookup_insert_ne. }
  assert (Hm1 : ∀ i, 0 <= i < count ->
                     is_Some (h1 !! (c0 + i * SIZE p)) ∧
                     is_Some (h1 !! (c0 + i * SIZE p + 8))).
  { intros i Hi. destruct (Hm i Hi) as [A B]. fold c0 in A, B.
    subst c0. rewrite !Hfr by nia. done. }
  destruct (initialize_loop_layout (Z.to_nat (count - 1)) h1 ps self parent
              c0 p Hp Hsz) as (h2 & E & P1 & P2).
  { subst c0. lia. }
  { rewrite Z2Nat.id by lia. subst c0. nia. }
  { intros i Hi. apply Hm1. lia. }
  rewrite Z2Nat.id in * by lia.
  erewrite bind_eq by exact E.
  assert (L0 : h2 !! (c0 + (count - 1) * SIZE p)
               = h1 !! (c0 + (count - 1) * SIZE p)).
  { apply P2. intros j Hj. nia. }
  assert (L1 : h2 !! (c0 + (count - 1) * SIZE p + 8)
               = h1 !! (c0 + (count - 1) * SIZE p + 8)).
  { apply P2. intros j Hj. nia. }
  destruct (Hm1 (count - 1) ltac:(lia)) as [A B].
  rewrite bind_store by (by rewrite L0).
  rewrite (padd_small _ PTR) by (unfold PTR; subst c0; nia).
  unfold PTR.
  unfold store. cbn [heap pools].
  rewrite lookup_insert_ne by lia. rewrite L1.
  destruct B as [v ->].
  eexists. split; [reflexivity|].
  assert (Hhdr : ∀ k, self <= k < self + 32 ->
                      <[c0 + (count - 1) * SIZE p + 8 := Some 0]>
                        (<[c0 + (count - 1) * SIZE p := Some self]> h2) !! k
                      = h1 !! k).
  { intros k Hk. rewrite !lookup_insert_ne by (subst c0; nia).
    apply P2. intros j Hj. subst c0. nia. }
  repeat apply conj.
  - rewrite Hhdr by lia. subst h1.
    rewrite !lookup_insert_ne by lia. by rewrite lookup_insert_eq.
  - rewrite Hhdr by lia. subst h1. by rewrite lookup_insert_eq.
  - rewrite Hhdr by lia. subst h1.
    rewrite !lookup_insert_ne by lia. by rewrite lookup_insert_eq.
  - rewrite Hhdr by lia. subst h1.
    rewrite !lookup_insert_ne by lia. by rewrite lookup_insert_eq.
  - intros i Hi. destruct (decide (i = count - 1)) as [->|Hne].
    + rewrite lookup_insert_ne by lia. by rewrite lookup_insert_eq.
    + rewrite !lookup_insert_ne by nia. apply P1. lia.
  - intros i Hi. rewrite !lookup_insert_ne by nia. apply P1. lia.
  - by rewrite lookup_insert_eq.
  - intros k Hk. rewrite !lookup_insert_ne by (subst c0; nia).
    rewrite P2 by (intros j Hj; subst c0; nia).
    apply Hfr; lia.
Qed.

(** X6.  For a block whose chunks lie behind its header (alignment 40 or
    more, chunks of 16 bytes or more), initialize sets [from] to the pool,
    [next] and [prev] to null and [curr] to the first chunk, one word below
    the block address plus the alignment; every chunk's leading word holds
    the block address, and the chunks' second words thread the free list
    through all [count] chunks in address order.  Nothing outside the block
    is written. *)
Theorem initialize_layout h ps self parent p count alignment :
  ps !! parent = Some p -> 16 <= SIZE p ->
  1 <= count -> 40 <= alignment ->
  0 <= self -> self + alignment - 8 + count * SIZE p <= SPACE ->
  is_Some (h !! self) -> is_Some (h !! (self + 8)) ->
  is_Some (h !! (self + 16)) -> is_Some (h !! (self + 24)) ->
  (∀ i, 0 <= i < count ->
        is_Some (h !! (self + alignment - 8 + i * SIZE p)) ∧
        is_Some (h !! (self + alignment - 8 + i * SIZE p + 8))) ->
  ∃ h',
    initialize self parent count alignment (World h ps)
    = Some (tt, World h' ps) ∧
    h' !! f_from self = Some (Some parent) ∧
    h' !! f_curr self = Some (Some (self + alignment - 8)) ∧
    h' !! f_next self = Some (Some nullptr) ∧
    h' !! f_prev self = Some (Some nullptr) ∧
    (∀ i, 0 <= i < count ->
          h' !! (self + alignment - 8 + i * SIZE p) = Some (Some self)) ∧
    free_list_from h' (self + alignment - 8) (SIZE p) count 0 ∧
    (∀ k, k < self ∨ self + alignment - 8 + count * SIZE p <= k ->
          h' !! k = h !! k).
Proof. apply initialize_writes. Qed.

Lemma initialize_layout_witness :
  ∃ h',
    initialize 4096 A_ 2 64 (World (blank 24 4096) {[A_ := wide_pool]})
    = Some (tt, World h' {[A_ := wide_pool]}) ∧
    h' !! f_from 4096 = Some (Some A_) ∧
    h' !! f_curr 4096 = Some (Some (4096 + 64 - 8)) ∧
    h' !! f_next 4096 = Some (Some nullptr) ∧
    h' !! f_prev 4096 = Some (Some nullptr) ∧
    (∀ i, 0 <= i < 2 ->
          h' !! (4096 + 64 - 8 + i * SIZE wide_pool) = Some (Some 4096)) ∧
    free_list_from h' (4096 + 64 - 8) (SIZE wide_pool) 2 0 ∧
    (∀ k, k < 4096 ∨ 4096 + 64 - 8 + 2 * SIZE wide_pool <= k ->
          h' !! k = blank 24 4096 !! k).
Proof.
  apply (initialize_layout (blank 24 4096) {[A_ := wide_pool]} 4096 A_
           wide_pool 2 64);
    try (by eexists; vm_compute);
    try (vm_compute; first [reflexivity | discriminate]).
  intros i Hi. assert (i = 0 ∨ i = 1) as [-> | ->] by lia;
    split; by eexists; vm_compute.
Defined.

(** The first construct of a pool with nothing allocated, on a layout
    whose chunks lie behind the header: where it ends. *)
Lemma fresh_construct_state h ps this p reply :
  ps !! this = Some p ->
  top p = nullptr -> idle p = [] -> gc p = [] ->
  40 <= ALIGNMENT p -> ALIGNMENT p mod 8 = 0 ->
  16 <= SIZE p -> SIZE p mod 8 = 0 ->
  1 <= COUNT p ->
  ALIGNMENT p + SIZE p * COUNT p - 8 <= ALLOCTATE p ->
  0 < reply -> reply + ALLOCTATE p <= SPACE ->
  reply mod ALIGNMENT p = 0 ->
  forallb (unmapped h) (cells (Z.to_nat (ALLOCTATE p / PTR)) reply) = true ->
  ∃ h',
    construct this reply (World h ps)
    = Some (reply + ALIGNMENT p,
            World h' (<[this := with_top (with_all p ({[reply]} ∪ all p))
                                  (if COUNT p =? 1 then nullptr else reply)]>
                        ps)) ∧
    h' !! (reply + ALIGNMENT p - 8) = Some (Some reply) ∧
    h' !! f_from reply = Some (Some this) ∧
    h' !! f_next reply = Some (Some nullptr) ∧
    (COUNT p ≠ 1 ->
     h' !! f_curr reply = Some (Some (reply + ALIGNMENT p - 8 + 1 * SIZE p)) ∧
     free_list_from h' (reply + ALIGNMENT p - 8) (SIZE p) (COUNT p) 1).
Proof.
  intros Hp Ht Hi Hg Hal Hal8 Hsz Hsz8 Hcnt Hbytes Hr0 Hr1 Hmod Hfresh.
  assert (Hsp : SPACE = 2 ^ 64) by reflexivity.
  assert (Hcs : SIZE p * COUNT p >= 16 * COUNT p) by nia.
  unfold construct, select. msimp. rewrite Ht. msimp.
  rewrite Hi. cbn [length Nat.eqb negb].
  unfold gc_try_pop. msimp. rewrite Hg. msimp.
  unfold setup. msimp.
  unfold aligned_malloc. rewrite is_null_false by (unfold nullptr; lia).
  unfold bind at 1. cbn [heap pools].
  rewrite (proj2 (Z.eqb_eq _ _) Hmod), Hfresh. cbn [andb].
  rewrite is_null_false by (unfold nullptr; lia).
  set (h1 := foldr _ h _).
  assert (Hmapped : ∀ k, reply <= k < reply + ALIGNMENT p + SIZE p * COUNT p - 8 ->
                         (k - reply) mod 8 = 0 -> is_Some (h1 !! k)).
  { intros k Hk Hk8. subst h1. apply cells_mapped; [lia| | |done].
    - rewrite Z2Nat.id by (unfold PTR; Z.div_mod_to_equations; lia).
      unfold PTR. Z.div_mod_to_equations. lia.
    - rewrite Z2Nat.id by (unfold PTR; Z.div_mod_to_equations; lia).
      unfold PTR. Z.div_mod_to_equations. lia. }
  assert (Hmul : ∀ i, (i * SIZE p) mod 8 = 0).
  { intros i. rewrite <- Z.mul_mod_idemp_r by lia. rewrite Hsz8.
    by rewrite Z.mul_0_r. }
  destruct (initialize_writes h1 ps reply this p (COUNT p) (ALIGNMENT p))
    as (h2 & E & Ffrom & Fcurr & Fnext & Fprev & Fback & [Flink Flast] & _);
    [done|lia|lia|lia|lia|nia| | | | | |].
  { apply Hmapped; [lia|]. by replace (reply - reply) with 0 by lia. }
  { apply Hmapped; [lia|]. by replace (reply + 8 - reply) with 8 by lia. }
  { apply Hmapped; [lia|]. by replace (reply + 16 - reply) with 16 by lia. }
  { apply Hmapped; [lia|]. by replace (reply + 24 - reply) with 24 by lia. }
  { intros i Hi'. split; apply Hmapped; try nia.
    - replace (reply + ALIGNMENT p - 8 + i * SIZE p - reply)
        with (ALIGNMENT p + (i * SIZE p + (-1) * 8)) by lia.
      rewrite Z.add_mod, Hal8, Z.mod_add, Hmul by lia. done.
    - replace (reply + ALIGNMENT p - 8 + i * SIZE p + 8 - reply)
        with (ALIGNMENT p + i * SIZE p) by lia.
      rewrite Z.add_mod, Hal8, Hmul by lia. done. }
  rewrite !bind_assoc. erewrite (bind_eq (initialize _ _ _ _)) by exact E.
  unfold set_top. msimp.
  unfold nullptr in *.
  rewrite is_null_false by lia. msimp.
  rewrite insert_insert_eq.
  set (p1 := with_top _ reply).
  set (ps1 := <[this := p1]> ps).
  assert (Hp1 : ps1 !! this = Some p1) by (subst ps1; by rewrite lookup_insert_eq).
  assert (Ht1 : top p1 = reply) by (subst p1; by destruct p).
  assert (Hc0 : reply + ALIGNMENT p - 8 ≠ 0) by lia.
  assert (Hpadd : padd (reply + ALIGNMENT p - 8) PTR = reply + ALIGNMENT p).
  { rewrite padd_small; unfold PTR; nia. }
  assert (Hfc : f_curr reply = reply + 8)
    by (unfold f_curr; rewrite padd_small; lia).
  assert (Hfn : f_next reply = reply + 16)
    by (unfold f_next; rewrite padd_small; lia).
  assert (Hff : f_from reply = reply)
    by (unfold f_from; rewrite padd_small; lia).
  pose proof (Fback 0 ltac:(lia)) as Fb0.
  rewrite Z.mul_0_l, Z.add_0_r in Fb0.
  destruct (decide (COUNT p = 1)) as [H1|H1].
  - rewrite H1 in *. cbn [Z.eqb Pos.eqb].
    replace (reply + ALIGNMENT p - 8 + (1 - 1) * SIZE p + 8)
      with (reply + ALIGNMENT p) in Flast by lia.
    erewrite (bind_eq (take_from_top _)).
    2:{ eapply (take_last_alone _ _ _ p1); rewrite ?Ht1;
          [exact Hp1|exact Fcurr|exact Hc0|by rewrite Hpadd|exact Fnext]. }
    rewrite Hpadd, Ht1. unfold ret. subst ps1. rewrite insert_insert_eq.
    eexists. split; [by subst p1; destruct p|].
    rewrite Hfc, Hfn, Hff in *.
    repeat apply conj; [by rewrite lookup_insert_ne by lia..|done].
  - rewrite (proj2 (Z.eqb_neq _ _) H1).
    pose proof (Flink 0 ltac:(lia)) as Fl0.
    rewrite Z.mul_0_l, Z.add_0_r in Fl0.
    erewrite (bind_eq (take_from_top _)).
    2:{ eapply (take_partial _ _ _ p1); rewrite ?Ht1;
          [exact Hp1|exact Fcurr|exact Hc0| |].
        - rewrite Hpadd.
          replace (reply + ALIGNMENT p) with (reply + ALIGNMENT p - 8 + 8) by lia.
          exact Fl0.
        - lia. }
    rewrite Hpadd, Ht1. unfold ret.
    eexists. split; [done|].
    rewrite Hfc, Hfn, Hff in *.
    repeat apply conj; [by rewrite lookup_insert_ne by lia..|].
    intros _. split; [|split].
    + rewrite lookup_insert_eq. do 2 f_equal; lia.
    + intros i Hi'. rewrite lookup_insert_ne by nia. apply Flink. lia.
    + rewrite lookup_insert_ne by nia. exact Flast.
Qed.

(** X7.  On a pool with nothing allocated, whose constants put the
    chunks behind the block header (alignment 40 or more) and inside the
    allocation, the first construct sets up the block the backend gives,
    puts it into [all] and returns the block address plus the alignment: a
    multiple of the alignment, with the block address in the word below it.
    The block is [top] afterwards unless it has a single chunk. *)
Theorem fresh_construct_aligned h ps this p reply :
  ps !! this = Some p ->
  top p = nullptr -> idle p = [] -> gc p = [] ->
  40 <= ALIGNMENT p -> ALIGNMENT p mod 8 = 0 ->
  16 <= SIZE p -> SIZE p mod 8 = 0 ->
  1 <= COUNT p ->
  ALIGNMENT p + SIZE p * COUNT p - 8 <= ALLOCTATE p ->
  0 < reply -> reply + ALLOCTATE p <= SPACE ->
  reply mod ALIGNMENT p = 0 ->
  forallb (unmapped h) (cells (Z.to_nat (ALLOCTATE p / PTR)) reply) = true ->
  ∃ h' p',
    construct this reply (World h ps)
    = Some (reply + ALIGNMENT p, World h' (<[this := p']> ps)) ∧
    (reply + ALIGNMENT p) mod ALIGNMENT p = 0 ∧
    h' !! (reply + ALIGNMENT p - 8) = Some (Some reply) ∧
    h' !! f_from reply = Some (Some this) ∧
    all p' = {[reply]} ∪ all p ∧
    top p' = (if COUNT p =? 1 then nullptr else reply) ∧
    idle p' = [] ∧ gc p' = [].
Proof.
  intros Hp Ht Hi Hg Hal Hal8 Hsz Hsz8 Hcnt Hbytes Hr0 Hr1 Hmod Hfresh.
  destruct (fresh_construct_state h ps this p reply)
    as (h' & E & Fb & Ff & _); try done.
  eexists h', _. split; [exact E|].
  repeat apply conj; try done; try (by destruct p).
  rewrite <- (Z.mul_1_l (ALIGNMENT p)) at 1.
  rewrite Z.mod_add by lia. done.
Qed.

Lemma fresh_construct_aligned_witness :
  ∃ h' p',
    construct A_ 4096 (World ∅ {[A_ := wide_pool]})
    = Some (4096 + ALIGNMENT wide_pool,
            World h' (<[A_ := p']> {[A_ := wide_pool]})) ∧
    (4096 + ALIGNMENT wide_pool) mod ALIGNMENT wide_pool = 0 ∧
    h' !! (4096 + ALIGNMENT wide_pool - 8) = Some (Some 4096) ∧
    h' !! f_from 4096 = Some (Some A_) ∧
    all p' = {[4096]} ∪ all wide_pool ∧
    top p' = (if COUNT wide_pool =? 1 then nullptr else 4096) ∧
    idle p' = [] ∧ gc p' = [].
Proof.
  apply (fresh_construct_aligned ∅ {[A_ := wide_pool]} A_ wide_pool 4096);
    vm_compute; first [reflexivity | discriminate].
Defined.

(** Constructs in a row on a block that is [top], from the [k]-th chunk
    of its free list on. *)
Lemma serve_ascending n :
  ∀ h ps this p b c0 k reply,
  ps !! this = Some p -> top p = b ->
  0 < b -> b + SIZEOF_BLOCK <= c0 -> 2 * PTR <= SIZE p ->
  c0 + COUNT p * SIZE p <= SPACE ->
  0 <= k -> k + Z.of_nat n <= COUNT p ->
  h !! f_curr b = Some (Some (c0 + k * SIZE p)) ->
  h !! f_next b = Some (Some nullptr) ->
  free_list_from h c0 (SIZE p) (COUNT p) k ->
  result (construct_n n this reply) (World h ps)
  = Some (map (fun i => c0 + (k + Z.of_nat i) * SIZE p + 8) (seq 0 n)).
Proof.
  induction n as [|n IH];
    intros h ps this p b c0 k reply Hp Ht Hb Hc0 Hsz Hend Hk Hkn Hcurr Hnext
      [Hlink Hlast]; [done|].
  assert (Hsp : SPACE = 2 ^ 64) by reflexivity.
  unfold SIZEOF_BLOCK, PTR in Hc0, Hsz.
  assert (Hks : 0 <= k * SIZE p <= (COUNT p - 1) * SIZE p) by nia.
  assert (Hcs : COUNT p * SIZE p = (COUNT p - 1) * SIZE p + SIZE p) by lia.
  assert (Hpadd : padd (c0 + k * SIZE p) PTR = c0 + k * SIZE p + 8).
  { rewrite padd_small; unfold PTR; lia. }
  assert (Ha : c0 + k * SIZE p ≠ 0) by lia.
  assert (Hb0 : top p ≠ 0) by lia.
  assert (Hfc : f_curr b = b + 8) by (unfold f_curr; rewrite padd_small; lia).
  assert (Hfn : f_next b = b + 16) by (unfold f_next; rewrite padd_small; lia).
  unfold nullptr in *. subst b.
  cbn [construct_n]. unfold result.
  destruct (decide (k = COUNT p - 1)) as [Hk1|Hk1].
  - assert (n = O) as -> by lia.
    erewrite bind_eq.
    2:{ eapply construct_top; [done..|].
        eapply take_last_alone; try eassumption.
        rewrite Hpadd, Hk1. exact Hlast. }
    cbn [construct_n]. rewrite bind_ret, Hpadd. cbn [ret map seq].
    do 3 f_equal. lia.
  - pose proof (Hlink k ltac:(lia)) as Hl.
    erewrite bind_eq.
    2:{ eapply construct_top; [done..|].
        eapply (take_partial _ _ _ p (c0 + k * SIZE p)
                  (c0 + (k + 1) * SIZE p));
          [done|done|done|by rewrite Hpadd|nia]. }
    rewrite Hpadd.
    assert (Hrest : result (construct_n n this reply)
                      (World (<[f_curr (top p) :=
                                  Some (c0 + (k + 1) * SIZE p)]> h) ps)
                    = Some (map (fun i => c0 + (k + 1 + Z.of_nat i) * SIZE p + 8)
                                (seq 0 n))).
    { apply (IH _ ps this p (top p) c0 (k + 1) reply Hp eq_refl);
        unfold SIZEOF_BLOCK, PTR; try lia.
      - by rewrite lookup_insert_eq.
      - rewrite lookup_insert_ne by lia. done.
      - split.
        + intros i Hi. rewrite lookup_insert_ne by nia. apply Hlink. lia.
        + rewrite lookup_insert_ne by nia. done. }
    unfold result in Hrest. unfold bind at 1.
    destruct (construct_n n this reply _) as [[xs w1]|];
      [|discriminate Hrest].
    injection Hrest as ->. cbn [ret map seq]. do 2 f_equal; [lia|].
    rewrite <- seq_shift, map_map. apply map_ext. intros i. lia.
Qed.

(** X8.  On a pool with nothing allocated, whose constants put the
    chunks behind the block header and inside the allocation, the first [n]
    constructs, for [n] up to COUNT, hand out the chunks of the one block
    the backend gives in ascending address order, SIZE apart, starting at
    the block address plus the alignment.  Where SIZE is a multiple of the
    alignment, every one of these addresses is a multiple of it. *)
Theorem fresh_pool_serves_block h ps this p reply n :
  ps !! this = Some p ->
  top p = nullptr -> idle p = [] -> gc p = [] ->
  40 <= ALIGNMENT p -> ALIGNMENT p mod 8 = 0 ->
  16 <= SIZE p -> SIZE p mod 8 = 0 ->
  1 <= COUNT p ->
  ALIGNMENT p + SIZE p * COUNT p - 8 <= ALLOCTATE p ->
  0 < reply -> reply + ALLOCTATE p <= SPACE ->
  reply mod ALIGNMENT p = 0 ->
  forallb (unmapped h) (cells (Z.to_nat (ALLOCTATE p / PTR)) reply) = true ->
  Z.of_nat n <= COUNT p ->
  result (construct_n n this reply) (World h ps)
  = Some (map (fun i => reply + ALIGNMENT p + Z.of_nat i * SIZE p) (seq 0 n)) ∧
  (SIZE p mod ALIGNMENT p = 0 ->
   ∀ i, (reply + ALIGNMENT p + i * SIZE p) mod ALIGNMENT p = 0).
Proof.
  intros Hp Ht Hi Hg Hal Hal8 Hsz Hsz8 Hcnt Hbytes Hr0 Hr1 Hmod Hfresh Hn.
  split.
  2:{ intros Hsa i.
      rewrite Z.add_mod, (Z.add_mod reply), Hmod, Z.mod_same by lia.
      rewrite <- (Z.mul_mod_idemp_r i), Hsa, Z.mul_0_r by lia. done. }
  destruct n as [|n]; [done|].
  destruct (fresh_construct_state h ps this p reply)
    as (h' & E & _ & _ & Fnext & Frest); try done.
  assert (Hsp : SPACE = 2 ^ 64) by reflexivity.
  cbn [construct_n]. unfold result.
  erewrite bind_eq by exact E.
  destruct (decide (COUNT p = 1)) as [H1|H1].
  - assert (n = O) as -> by lia.
    cbn [construct_n]. rewrite bind_ret. cbn [ret map seq].
    do 2 f_equal. lia.
  - destruct (Frest H1) as [Fcurr Flist].
    rewrite (proj2 (Z.eqb_neq _ _) H1) in *.
    set (p1 := with_top _ reply) in *.
    assert (Hrest : result (construct_n n this reply)
                      (World h' (<[this := p1]> ps))
                    = Some (map (fun i => reply + ALIGNMENT p - 8
                                          + (1 + Z.of_nat i) * SIZE p1 + 8)
                                (seq 0 n))).
    { apply (serve_ascending n h' _ this p1 reply);
        subst p1; try (by rewrite lookup_insert_eq);
        try (by destruct p); destruct p; cbn in *;
        unfold SIZEOF_BLOCK, PTR; try lia; try nia; done. }
    unfold result in Hrest. unfold bind at 1.
    destruct (construct_n n this reply _) as [[xs w1]|];
      [|discriminate Hrest].
    injection Hrest as ->. cbn [ret map seq]. do 2 f_equal; [lia|].
    rewrite <- seq_shift, map_map. apply map_ext. intros i.
    replace (SIZE p1) with (SIZE p) by (subst p1; by destruct p). lia.
Qed.

Lemma fresh_pool_serves_block_witness :
  result (construct_n 2 A_ 4096) (World ∅ {[A_ := wide_pool]})
  = Some (map (fun i => 4096 + ALIGNMENT wide_pool + Z.of_nat i * SIZE wide_pool)
              (seq 0 2)) ∧
  (SIZE wide_pool mod ALIGNMENT wide_pool = 0 ->
   ∀ i, (4096 + ALIGNMENT wide_pool + i * SIZE wide_pool)
        mod ALIGNMENT wide_pool = 0).
Proof.
  apply (fresh_pool_serves_block ∅ {[A_ := wide_pool]} A_ wide_pool 4096 2);
    vm_compute; first [reflexivity | discriminate].
Defined.

(** * The constants of pool::pool *)

Lemma adjust_spec v u :
  0 < u -> 0 <= v -> v + u <= SPACE ->
  v <= adjust v u < v + u ∧ adjust v u mod u = 0.
Proof.
  intros Hu Hv Hs. unfold adjust.
  assert (Hsp : SPACE = 2 ^ 64) by reflexivity.
  assert (H : v <= (v + u - 1) / u * u < v + u).
  { pose proof (Z.div_mod (v + u - 1) u ltac:(lia)) as D.
    pose proof (Z.mod_pos_bound (v + u - 1) u Hu). lia. }
  rewrite Z.mod_small by lia. split; [done|]. by apply Z.mod_mul; lia.
Qed.

Lemma boundary_from_exact fuel j k :
  0 <= j <= k -> k <= j + Z.of_nat fuel ->
  boundary_from fuel (2 ^ j) (2 ^ k) = 2 ^ k.
Proof.
  revert j. induction fuel as [|fuel IH]; intros j Hj Hk; cbn [boundary_from].
  - f_equal. lia.
  - destruct (Z.leb_spec (2 ^ k) (2 ^ j)) as [Hle|Hlt].
    + destruct (decide (j = k)) as [->|]; [done|].
      assert (2 ^ j < 2 ^ k) by (apply Z.pow_lt_mono_r; lia). lia.
    + destruct (decide (j = k)) as [->|]; [lia|].
      replace (2 * 2 ^ j) with (2 ^ (j + 1)) by (rewrite Z.pow_add_r; lia).
      apply IH; lia.
Qed.

(** X9.  For an alignment that is a power of two from 64 on, and sizes
    that do not overflow, the constants pool::pool computes fit together:
    ALIGNMENT is the alignment asked for, SIZE holds the chunk and its
    leading word and is a multiple of the alignment, COUNT is at least the
    count asked for, and ALLOCTATE, a multiple of the alignment, reaches
    from the block's start to the end of the last chunk's word pair, with
    the first chunk's leading word one word below the first multiple of
    the alignment. *)
Theorem ctor_layout DEF_CACHE chunk count align k :
  align = 2 ^ k -> 6 <= k <= 30 ->
  0 <= chunk < 2 ^ 31 -> 1 <= count < 2 ^ 20 -> 1 <= DEF_CACHE < 2 ^ 20 ->
  let p := pool_ctor DEF_CACHE chunk count align in
  ALIGNMENT p = align ∧
  chunk + PTR <= SIZE p ∧ SIZE p mod align = 0 ∧ SIZE p mod 8 = 0 ∧
  count <= COUNT p ∧
  ALLOCTATE p mod align = 0 ∧
  align + SIZE p * COUNT p - PTR <= ALLOCTATE p ∧
  top p = nullptr ∧ idle p = [] ∧ gc p = [] ∧ all p = ∅.
Proof.
  intros -> Hk Hchunk Hcount Hdef.
  cbn [pool_ctor ALIGNMENT SIZE COUNT ALLOCTATE top idle gc all].
  assert (H64 : 64 <= 2 ^ k).
  { change 64 with (2 ^ 6). apply Z.pow_le_mono_r; lia. }
  assert (H30 : 2 ^ k <= 1073741824).
  { change 1073741824 with (2 ^ 30). apply Z.pow_le_mono_r; lia. }
  assert (H8 : 2 ^ k mod 8 = 0).
  { replace k with (3 + (k - 3)) by lia. rewrite Z.pow_add_r by lia.
    change (2 ^ 3) with 8. rewrite Z.mul_comm. by apply Z.mod_mul. }
  assert (HA : boundary (2 ^ k) = 2 ^ k).
  { unfold boundary. change 1 with (2 ^ 0). apply boundary_from_exact; lia. }
  rewrite HA. clear HA.
  change (2 ^ 31) with 2147483648 in Hchunk.
  change (2 ^ 20) with 1048576 in Hcount, Hdef.
  assert (Hsp : SPACE = 18446744073709551616) by reflexivity.
  clear Hk. generalize dependent (2 ^ k). clear k. intros a H64 H30 H8.
  unfold SIZEOF_BLOCK, PTR.
  rewrite (padd_small chunk 8), (padd_small 32 8) by lia.
  change (32 + 8) with 40.
  destruct (adjust_spec (chunk + 8) a) as [HS HSm]; [lia..|].
  destruct (adjust_spec count DEF_CACHE) as [HC _]; [lia..|].
  assert (Hh : adjust 40 a = a).
  { destruct (adjust_spec 40 a) as [Hh Hhm]; [lia..|].
    apply Z.mod_divide in Hhm as [q Hq]; [|lia].
    assert (q = 1) as ->; [|lia].
    destruct (Z_le_gt_dec q 0); [nia|].
    destruct (Z_le_gt_dec 2 q); [nia|lia]. }
  rewrite Hh.
  generalize dependent (adjust (chunk + 8) a). intros sz HS HSm.
  generalize dependent (adjust count DEF_CACHE). intros cnt HC.
  assert (HSC : 0 < sz * cnt < 4294967296 * 2097152).
  { split; [nia|]. apply Z.mul_lt_mono_nonneg; lia. }
  rewrite (Z.mod_small (sz * cnt)) by lia.
  rewrite padd_small by lia. rewrite psub_small by lia.
  destruct (adjust_spec (a + sz * cnt - 8) a) as [HB HBm]; [lia..|].
  repeat apply conj; try done; try lia.
  apply Z.mod_divide in HSm as [q Hq]; [|lia].
  rewrite Hq, <- Z.mul_mod_idemp_r, H8, Z.mul_0_r by lia. done.
Qed.

Lemma ctor_layout_witness :
  let p := pool_ctor 2 56 2 64 in
  ALIGNMENT p = 64 ∧
  56 + PTR <= SIZE p ∧ SIZE p mod 64 = 0 ∧ SIZE p mod 8 = 0 ∧
  2 <= COUNT p ∧
  ALLOCTATE p mod 64 = 0 ∧
  64 + SIZE p * COUNT p - PTR <= ALLOCTATE p ∧
  top p = nullptr ∧ idle p = [] ∧ gc p = [] ∧ all p = ∅.
Proof.
  apply (ctor_layout 2 56 2 64 6); [reflexivity|lia..].
Defined.


(** * The free list of a block *)

Lemma set_get_roundtrip_witness :
  (x <- get 4096 ;; set 4096 x) one_taken = Some (tt, one_taken).
Proof.
  apply (set_get_roundtrip (heap one_taken) (pools one_taken) 4096 4216 0);
    vm_compute; first [reflexivity | discriminate].
Defined.

(** X10.  [set] of a chunk followed by [get] returns that chunk and puts
    [curr] back to what it was: the free list is a stack, and all that is
    left of the push is the old head in the chunk's second word. *)
Theorem set_then_get h ps b x c :
  x ≠ nullptr ->
  h !! f_curr b = Some (Some c) ->
  is_Some (h !! padd x PTR) -> padd x PTR ≠ f_curr b ->
  (set b x ;;; get b) (World h ps)
  = Some (x, World (<[padd x PTR := Some c]> h) ps).
Proof.
  intros Hx Hc Hs Hne.
  erewrite bind_eq by (by apply set_some).
  erewrite get_some; [|by rewrite lookup_insert_eq|done|lookup_tac].
  do 3 f_equal. rewrite insert_insert_eq.
  apply map_eq. intros k.
  destruct (decide (k = f_curr b)) as [->|]; [|by rewrite lookup_insert_ne].
  rewrite lookup_insert_eq. by rewrite lookup_insert_ne.
Qed.

Lemma set_then_get_witness :
  (set 4096 4152 ;;; get 4096) one_taken
  = Some (4152, World (<[padd 4152 PTR := Some 4216]> (heap one_taken))
                      (pools one_taken)).
Proof.
  apply (set_then_get (heap one_taken) (pools one_taken) 4096 4152 4216);
    vm_compute; first [reflexivity | discriminate | by eexists].
Defined.

(** X11.  [get] writes nothing but the block's [curr] field, and [set]
    nothing but that field and the second word of the chunk: the pools and
    every other word of the heap, the first word of the chunk with its
    back-reference among them, are what they were. *)
Theorem get_set_footprint b x w w' :
  (∀ r, get b w = Some (r, w') ->
        pools w' = pools w ∧
        ∀ k, k ≠ f_curr b -> heap w' !! k = heap w !! k) ∧
  (set b x w = Some (tt, w') ->
   pools w' = pools w ∧
   ∀ k, k ≠ f_curr b -> k ≠ padd x PTR -> heap w' !! k = heap w !! k).
Proof.
  split.
  - intros r E. unfold get in E.
    apply bind_inv in E as (c & w1 & E1 & E).
    apply load_inv in E1 as [-> _].
    destruct (is_null c).
    { injection E as _ <-. done. }
    apply bind_inv in E as (n & w1 & E1 & E).
    apply load_inv in E1 as [-> _].
    apply bind_inv in E as ([] & w1 & E1 & E).
    apply store_inv in E1 as ->. injection E as _ <-. cbn.
    split; [done|]. intros k Hk. by rewrite lookup_insert_ne.
  - intros E. unfold set in E.
    destruct (is_null x).
    { injection E as <-. done. }
    apply bind_inv in E as (c & w1 & E1 & E).
    apply load_inv in E1 as [-> _].
    apply bind_inv in E as ([] & w1 & E1 & E).
    apply store_inv in E1 as ->. apply store_inv in E as ->. cbn.
    split; [done|]. intros k Hk1 Hk2. by rewrite !lookup_insert_ne.
Qed.

(** * construct and destruct on the chain *)

(** X12.  On a pool whose chain is the one block [top], with nothing
    queued, construct followed by destruct of the address it returned puts
    the world back exactly as it was, whether the chunk was the block's
    last free one or not. *)
Theorem construct_destruct_round_trip h ps this p b a nx reply :
  ps !! this = Some p -> top p = b -> b ≠ nullptr -> gc p = [] ->
  h !! f_from b = Some (Some this) ->
  h !! f_next b = Some (Some nullptr) ->
  h !! f_prev b = Some (Some nullptr) ->
  h !! f_curr b = Some (Some a) ->
  0 < b -> b + SIZEOF_BLOCK <= a -> a + 2 * PTR <= SPACE ->
  h !! a = Some (Some b) ->
  h !! padd a PTR = Some (Some nx) ->
  (x <- construct this reply ;; destruct this x) (World h ps)
  = Some (tt, World h ps).
Proof.
  intros Hp Ht Hb Hg Hfrom Hnext Hprev Hcurr Hb0 Hba Ha1 Hback Hlink.
  assert (Hsp : SPACE = 2 ^ 64) by reflexivity.
  unfold SIZEOF_BLOCK, PTR in Hba, Ha1.
  assert (Ha0 : 0 < a) by lia.
  assert (Ha2 : a + PTR < SPACE) by (unfold PTR; lia).
  assert (N : (a ≠ f_curr b ∧ a ≠ f_next b ∧ a ≠ f_prev b) ∧
              padd a PTR ≠ f_curr b ∧ padd a PTR ≠ f_next b ∧
              padd a PTR ≠ f_prev b ∧ padd a PTR ≠ a).
  { unfold f_curr, f_next, f_prev, PTR. rewrite !padd_small by lia.
    repeat split; lia. }
  destruct N as ((N1 & N2 & N3) & N4 & N5 & N6 & Hpa).
  subst b. fields (top p). unfold nullptr in *.
  assert (Ha : a ≠ 0) by lia.
  destruct (decide (nx = 0)) as [->|Hnx].
  - erewrite bind_eq.
    2:{ eapply construct_top; [done..|]. by eapply take_last_alone. }
    erewrite destruct_own;
      [ | lia | done | lookup_tac | lookup_tac
        | erewrite recycle_full_alone;
          [reflexivity|by rewrite lookup_insert_eq|done|lookup_tac|lia
          |lookup_tac|lookup_tac..]
        | by rewrite lookup_insert_eq | done ].
    do 2 f_equal. f_equal.
    + apply map_eq. intros k.
      destruct (decide (k = f_curr (top p))) as [->|];
        [by rewrite lookup_insert_eq|].
      rewrite lookup_insert_ne by done.
      destruct (decide (k = padd a PTR)) as [->|];
        [by rewrite lookup_insert_eq|].
      rewrite lookup_insert_ne by done.
      destruct (decide (k = f_prev (top p))) as [->|];
        [by rewrite lookup_insert_eq|].
      rewrite lookup_insert_ne by done.
      destruct (decide (k = f_next (top p))) as [->|];
        [by rewrite lookup_insert_eq|].
      by rewrite !lookup_insert_ne.
    + rewrite insert_insert_eq. apply insert_id. rewrite Hp. by destruct p.
  - erewrite bind_eq.
    2:{ eapply construct_top; [done..|]. by eapply take_partial. }
    erewrite destruct_own;
      [ | lia | done | lookup_tac | lookup_tac
        | erewrite recycle_partial;
          [reflexivity|done|done|lookup_tac|lia
          |by rewrite lookup_insert_eq|done|lookup_tac]
        | exact Hp | done ].
    do 3 f_equal.
    apply map_eq. intros k.
    destruct (decide (k = f_curr (top p))) as [->|];
      [by rewrite lookup_insert_eq|].
    rewrite lookup_insert_ne by done.
    destruct (decide (k = padd a PTR)) as [->|];
      [by rewrite lookup_insert_eq|].
    by rewrite !lookup_insert_ne.
Qed.

Lemma construct_destruct_round_trip_witness :
  (x <- construct A_ 8192 ;; destruct A_ x) one_taken = Some (tt, one_taken).
Proof.
  apply (construct_destruct_round_trip (heap one_taken) (pools one_taken) A_
           (Pool 64 64 2 192 4096 [] {[4096]} []) 4096 4216 0 8192);
    vm_compute; first [reflexivity | discriminate].
Defined.

(** X13.  When construct takes the last free chunk of [top] and [top]
    has a successor on the chain, the successor becomes [top] and the two
    blocks are unlinked from one another; the full block keeps a null
    [curr].  Nothing else is written. *)
Theorem construct_advances_top h ps this p b n a reply :
  ps !! this = Some p -> top p = b -> b ≠ nullptr ->
  h !! f_curr b = Some (Some a) -> a ≠ nullptr ->
  h !! padd a PTR = Some (Some nullptr) ->
  h !! f_next b = Some (Some n) -> n ≠ nullptr ->
  h !! f_prev n = Some (Some b) ->
  0 <= b -> 0 <= n -> b + SIZEOF_BLOCK <= SPACE -> n + SIZEOF_BLOCK <= SPACE ->
  b + SIZEOF_BLOCK <= n ∨ n + SIZEOF_BLOCK <= b ->
  ∃ h',
    construct this reply (World h ps)
    = Some (padd a PTR, World h' (<[this := with_top p n]> ps)) ∧
    h' !! f_curr b = Some (Some nullptr) ∧
    h' !! f_next b = Some (Some nullptr) ∧
    h' !! f_prev n = Some (Some nullptr) ∧
    ∀ k, k ≠ f_curr b -> k ≠ f_next b -> k ≠ f_prev n -> h' !! k = h !! k.
Proof.
  intros Hp Ht Hb Hc Ha Hl Hn Hn0 Hpv B0 N0 B1 N1 Hd.
  assert (Hsp : SPACE = 2 ^ 64) by reflexivity.
  unfold SIZEOF_BLOCK in *.
  assert (D : f_prev n ≠ f_curr b ∧ f_prev n ≠ f_next b ∧ f_curr b ≠ f_next b).
  { unfold f_curr, f_next, f_prev. rewrite !padd_small by lia.
    repeat split; lia. }
  destruct D as (D1 & D2 & D3). subst b. unfold nullptr in *.
  eexists. split.
  - eapply construct_top; [done..|].
    eapply take_last_linked; try eassumption; [by eexists|done].
  - repeat (split; [lookup_tac|]).
    intros k K1 K2 K3. by rewrite !lookup_insert_ne.
Qed.

Lemma construct_advances_top_witness :
  ∃ h',
    construct A_ nullptr two_on_chain
    = Some (padd 4152 PTR,
            World h' (<[A_ := with_top (Pool 64 64 2 192 4096 []
                                          {[4096; 8192]} []) 8192]>
                        (pools two_on_chain))) ∧
    h' !! f_curr 4096 = Some (Some nullptr) ∧
    h' !! f_next 4096 = Some (Some nullptr) ∧
    h' !! f_prev 8192 = Some (Some nullptr) ∧
    ∀ k, k ≠ f_curr 4096 -> k ≠ f_next 4096 -> k ≠ f_prev 8192 ->
         h' !! k = heap two_on_chain !! k.
Proof.
  apply (construct_advances_top (heap two_on_chain) (pools two_on_chain) A_
           (Pool 64 64 2 192 4096 [] {[4096; 8192]} []) 4096 8192 4152 nullptr);
    try (vm_compute; first [reflexivity | discriminate]).
  left. vm_compute. discriminate.
Defined.

(** X14.  destruct of a chunk of a full block, which is on no chain,
    puts the block at the head of the chain: it becomes [top], its [next]
    is the old [top], whose [prev] is the block, and the chunk is the
    block's whole free list. *)
Theorem destruct_splices_full_block h ps this p b t a :
  ps !! this = Some p -> top p = t -> t ≠ nullptr -> gc p = [] ->
  h !! a = Some (Some b) ->
  h !! f_from b = Some (Some this) ->
  h !! f_curr b = Some (Some nullptr) ->
  is_Some (h !! f_next b) -> is_Some (h !! f_prev b) ->
  is_Some (h !! padd a PTR) -> is_Some (h !! f_prev t) ->
  0 < b -> b + SIZEOF_BLOCK <= a -> a + 2 * PTR <= SPACE ->
  0 < t -> t + SIZEOF_BLOCK <= SPACE ->
  t + SIZEOF_BLOCK <= b ∨ a + 2 * PTR <= t ->
  ∃ h',
    destruct this (padd a PTR) (World h ps)
    = Some (tt, World h' (<[this := with_top p b]> ps)) ∧
    h' !! f_curr b = Some (Some a) ∧
    h' !! padd a PTR = Some (Some nullptr) ∧
    h' !! f_next b = Some (Some t) ∧
    h' !! f_prev b = Some (Some nullptr) ∧
    h' !! f_prev t = Some (Some b).
Proof.
  intros Hp Ht Ht0 Hg Hback Hfrom Hcurr S1 S2 S3 S4 B0 Hba A1 T0 T1 Hd.
  assert (Hsp : SPACE = 2 ^ 64) by reflexivity.
  unfold SIZEOF_BLOCK, PTR in Hba, A1, T1, Hd.
  assert (A0 : 0 <= a) by lia.
  assert (A3 : a ≠ 0) by lia.
  assert (A2 : a + PTR < SPACE) by (unfold PTR; lia).
  assert (D : f_prev t ≠ f_curr b ∧ f_prev t ≠ f_next b ∧ f_prev t ≠ f_prev b ∧
              f_prev t ≠ padd a PTR ∧ padd a PTR ≠ f_curr b ∧
              padd a PTR ≠ f_next b ∧ padd a PTR ≠ f_prev b ∧
              f_prev t ≠ a ∧ f_prev t ≠ f_from b).
  { unfold f_from, f_curr, f_next, f_prev, PTR. rewrite !padd_small by lia.
    repeat split; lia. }
  destruct D as (D1 & D2 & D3 & D4 & D5 & D6 & D7 & D8 & D9).
  fields b. unfold nullptr in *.
  eexists. split.
  - eapply destruct_own;
      [done|done|done|done
      |by eapply recycle_full_linked; try eassumption
      |by rewrite lookup_insert_eq|by destruct p].
  - repeat (split; [lookup_tac|]). lookup_tac.
Qed.

Lemma destruct_splices_full_block_witness :
  ∃ h',
    destruct A_ (padd 4152 PTR) second_block
    = Some (tt, World h'
                  (<[A_ := with_top (Pool 64 64 2 192 8192 []
                                       {[4096; 8192]} []) 4096]>
                     (pools second_block))) ∧
    h' !! f_curr 4096 = Some (Some 4152) ∧
    h' !! padd 4152 PTR = Some (Some nullptr) ∧
    h' !! f_next 4096 = Some (Some 8192) ∧
    h' !! f_prev 4096 = Some (Some nullptr) ∧
    h' !! f_prev 8192 = Some (Some 4096).
Proof.
  apply (destruct_splices_full_block (heap second_block) (pools second_block)
           A_ (Pool 64 64 2 192 8192 [] {[4096; 8192]} []) 4096 8192 4152);
    try (vm_compute; first [reflexivity | discriminate | by eexists]).
  right. vm_compute. discriminate.
Defined.

(** X15.  After recycle of a chunk whose block is [top], or whose block
    was full, that block is [top] and the idle queue is what it was: the
    block construct serves from is never parked, whatever its free list
    looks like. *)
Theorem recycle_keeps_top_block this x b p w w' :
  pools w !! this = Some p ->
  heap w !! x = Some (Some b) -> x ≠ nullptr ->
  top p = b ∨ heap w !! f_curr b = Some (Some nullptr) ->
  recycle this x w = Some (tt, w') ->
  ∃ p', pools w' !! this = Some p' ∧ top p' = b ∧ idle p' = idle p.
Proof.
  intros Hp Hx Hx0 Hor E. unfold recycle in E.
  apply bind_inv in E as (parent & w1 & E1 & E).
  apply load_inv in E1 as [-> E1]. rewrite Hx in E1. injection E1 as <-.
  apply bind_inv in E as (c & w2 & E2 & E).
  apply load_inv in E2 as [-> Hc].
  apply bind_inv in E as ([] & w3 & E3 & E).
  apply bind_inv in E as ([] & w4 & E4 & E).
  apply bind_inv in E as (c' & w5 & E5 & E).
  apply load_inv in E5 as [-> _].
  assert (H3 : ∃ p3, pools w3 !! this = Some p3 ∧ top p3 = b ∧
                     idle p3 = idle p).
  { destruct (is_null c) eqn:Hnull; cbn [when] in E3.
    - apply bind_inv in E3 as (p0 & w6 & E6 & E3).
      unfold the_pool in E6. rewrite Hp in E6. injection E6 as <- <-.
      apply bind_inv in E3 as ([] & w6 & E6 & E3).
      apply bind_inv in E3 as ([] & w7 & E7 & E3).
      apply bind_inv in E3 as ([] & w8 & E8 & E3).
      assert (Hps : pools w8 = pools w).
      { apply store_inv in E7 as ->, E8 as ->. cbn [pools].
        destruct (negb _); cbn [when] in E6.
        - by apply store_inv in E6 as ->.
        - by injection E6 as <-. }
      unfold set_top, update_pool in E3. rewrite Hps, Hp in E3.
      injection E3 as <-. cbn [pools]. rewrite lookup_insert_eq.
      eexists. split; [done|]. by destruct p.
    - injection E3 as <-. exists p. split; [done|]. split; [|done].
      destruct Hor as [?|Hz]; [done|].
      rewrite Hz in Hc. injection Hc as <-. discriminate Hnull. }
  destruct H3 as (p3 & Hp3 & Ht3 & Hi3).
  assert (H4 : pools w4 = pools w3).
  { symmetry. by apply (preserves_set eq) in E4. }
  rewrite <- H4 in Hp3.
  destruct (c' =? padd b SIZEOF_BLOCK).
  - apply bind_inv in E as (p4 & w6 & E6 & E).
    unfold the_pool in E6. rewrite Hp3 in E6. injection E6 as <- <-.
    rewrite Ht3, Z.eqb_refl in E. injection E as <-. by exists p3.
  - injection E as <-. by exists p3.
Qed.

Lemma recycle_keeps_top_block_witness :
  ∃ p', pools (after (recycle A_ 4152) full_block) !! A_ = Some p' ∧
        top p' = 4096 ∧ idle p' = idle (Pool 64 64 2 192 0 [] {[4096]} []).
Proof.
  apply (recycle_keeps_top_block A_ 4152 4096
           (Pool 64 64 2 192 0 [] {[4096]} []) full_block).
  - vm_compute. reflexivity.
  - vm_compute. reflexivity.
  - done.
  - right. vm_compute. reflexivity.
  - vm_compute. reflexivity.
Defined.

Lemma recycle_first_chunk_not_parked_witness :
  idle <$> pools (after (recycle A_ 8248) two_on_chain) !! A_
  = Some (idle (Pool 64 64 2 192 4096 [] {[4096; 8192]} [])).
Proof.
  apply (recycle_first_chunk_not_parked 2 56 2 64 A_
           (Pool 64 64 2 192 4096 [] {[4096; 8192]} []) 8248 8192
           two_on_chain);
    vm_compute; first [reflexivity | discriminate].
Defined.

(** * construct when [top] is null *)

(** X16.  With [top] null and no idle block, construct takes the chunk at
    the front of the pool's queue and returns it as it is, one word up: the
    backend is not asked, and neither the heap nor any block is touched. *)
Theorem construct_from_queue h ps this p x rest reply :
  ps !! this = Some p ->
  top p = nullptr -> idle p = [] -> gc p = x :: rest -> x ≠ nullptr ->
  construct this reply (World h ps)
  = Some (padd x PTR, World h (<[this := with_gc p rest]> ps)).
Proof.
  intros Hp Ht Hi Hg Hx. unfold construct, select. msimp.
  rewrite Ht. msimp. rewrite Hi. cbn [length Nat.eqb negb].
  unfold gc_try_pop. msimp. rewrite Hg. msimp. done.
Qed.

Lemma construct_from_queue_witness :
  construct A_ 8192 queued
  = Some (padd 4216 PTR,
          World (heap queued)
                (<[A_ := with_gc (Pool 64 64 2 192 0 [] {[4096]} [4216]) []]>
                   (pools queued))).
Proof.
  apply (construct_from_queue (heap queued) (pools queued) A_
           (Pool 64 64 2 192 0 [] {[4096]} [4216]) 4216 [] 8192);
    vm_compute; first [reflexivity | discriminate].
Defined.

(** X17.  A chunk of pool [owner], handed back through another pool
    while [owner] has no block to serve from ([top] null, idle queue and
    queue empty) and then asked for again from [owner], comes back as the
    same address, and the world is exactly what it was: the chunk only
    passes through the owner's queue. *)
Theorem cross_owner_round_trip h ps this owner x b p q reply :
  8 < x < SPACE ->
  h !! psub x PTR = Some (Some b) ->
  h !! f_from b = Some (Some owner) ->
  owner ≠ this ->
  ps !! this = Some p -> gc p = [] ->
  ps !! owner = Some q ->
  top q = nullptr -> idle q = [] -> gc q = [] ->
  (destruct this x ;;; construct owner reply) (World h ps)
  = Some (x, World h ps).
Proof.
  intros Hx Hb Hf Hne Hp Hg Hq Ht Hi Hgq.
  assert (Hsp : SPACE = 2 ^ 64) by reflexivity.
  destruct q as [qA qS qC qB qt qi qa qg]. cbn in Ht, Hi, Hgq. subst qt qi qg.
  erewrite bind_eq.
  2:{ eapply destruct_foreign; try eassumption. unfold nullptr. lia. }
  cbn [gc with_gc app].
  rewrite psub_small by (unfold PTR; lia).
  unfold construct, select. msimp.
  cbn [top idle gc with_gc length Nat.eqb negb].
  msimp. unfold gc_try_pop. msimp. cbn [gc with_gc]. msimp.
  rewrite is_null_false by (unfold nullptr, PTR; lia). msimp.
  rewrite !insert_insert_eq.
  rewrite padd_small by (unfold PTR; lia). unfold ret.
  do 3 f_equal; [unfold PTR; lia|].
  by apply insert_id.
Qed.

Lemma cross_owner_round_trip_witness :
  (destruct B_ 4224 ;;; construct A_ 8192) full_block = Some (4224, full_block).
Proof.
  apply (cross_owner_round_trip (heap full_block) (pools full_block) B_ A_
           4224 4096 wide_pool (Pool 64 64 2 192 0 [] {[4096]} []) 8192);
    vm_compute; first [reflexivity | discriminate | done].
Defined.

(** * pool::setup *)

(** X18.  setup returns what the backend answered.  On a null answer the
    world is what it was; otherwise the new block has been added to the
    pool's [all] set, and nothing else of any pool object has changed. *)
Theorem setup_outcome this reply w r w' p :
  pools w !! this = Some p ->
  setup this reply w = Some (r, w') ->
  r = reply ∧
  (reply = nullptr -> w' = w) ∧
  (reply ≠ nullptr ->
   pools w' = <[this := with_all p ({[reply]} ∪ all p)]> (pools w)).
Proof.
  intros Hp E. unfold setup in E.
  apply bind_inv in E as (p0 & w1 & E1 & E).
  unfold the_pool in E1. rewrite Hp in E1. injection E1 as <- <-.
  apply bind_inv in E as (self & w1 & E1 & E).
  unfold aligned_malloc in E1.
  destruct (is_null reply) eqn:Hnull.
  - injection E1 as <- <-. change (is_null nullptr) with true in E.
    injection E as <- <-. apply Z.eqb_eq in Hnull. done.
  - apply Z.eqb_neq in Hnull.
    assert (self = reply ∧ pools w1 = pools w) as [-> Hps].
    { destruct (_ && _); [|discriminate E1]. by injection E1 as <- <-. }
    rewrite is_null_false in E by done.
    apply bind_inv in E as ([] & w2 & E2 & E).
    apply (preserves_initialize eq) in E2.
    apply bind_inv in E as ([] & w3 & E3 & E).
    injection E as <- <-.
    unfold update_pool in E3. rewrite <- E2, Hps, Hp in E3.
    injection E3 as <-. done.
Qed.

Lemma setup_outcome_witness :
  4096 = 4096 ∧
  (4096 = nullptr ->
   after (setup A_ 4096) (one_pool wide_pool) = one_pool wide_pool) ∧
  (4096 ≠ nullptr ->
   pools (after (setup A_ 4096) (one_pool wide_pool))
   = <[A_ := with_all wide_pool ({[4096]} ∪ all wide_pool)]>
       (pools (one_pool wide_pool))).
Proof.
  apply (setup_outcome A_ 4096 (one_pool wide_pool) 4096
           (after (setup A_ 4096) (one_pool wide_pool)) wide_pool);
    vm_compute; reflexivity.
Defined.

(** * construct and the idle queue *)

(** X19.  With [top] null and a block in the idle queue, construct takes
    the block at the front of that queue, makes it [top] and serves from
    it: the pool's queue is not looked at and the backend is not asked. *)
Theorem construct_from_idle h ps this p b rest a nx reply :
  ps !! this = Some p ->
  top p = nullptr -> idle p = b :: rest -> b ≠ nullptr ->
  h !! f_curr b = Some (Some a) -> a ≠ nullptr ->
  h !! padd a PTR = Some (Some nx) -> nx ≠ nullptr ->
  construct this reply (World h ps)
  = Some (padd a PTR,
          World (<[f_curr b := Some nx]> h)
                (<[this := with_top (with_idle p rest) b]> ps)).
Proof.
  intros Hp Ht Hi Hb Hc Ha Hl Hnx. unfold construct, select. msimp.
  rewrite Ht. msimp. rewrite Hi. cbn [length Nat.eqb negb].
  unfold idle_fifo. msimp. rewrite Hi. unfold set_top. msimp.
  erewrite (bind_eq (take_from_top _)).
  2:{ eapply (take_partial _ _ _ (with_top (with_idle p rest) b));
        [by rewrite lookup_insert_eq|done..]. }
  unfold ret. by rewrite !insert_insert_eq.
Qed.

Lemma construct_from_idle_witness :
  construct A_ nullptr parked
  = Some (padd 8248 PTR,
          World (<[f_curr 8192 := Some 8312]> (heap parked))
                (<[A_ := with_top
                           (with_idle
                              (with_idle (with_all wide_pool {[8192]}) [8192])
                              []) 8192]> (pools parked))).
Proof.
  apply (construct_from_idle (heap parked) (pools parked) A_
           (with_idle (with_all wide_pool {[8192]}) [8192]) 8192 [] 8248 8312
           nullptr);
    vm_compute; first [reflexivity | discriminate].
Defined.


(** * The queues after destruct and cleanup *)

(** When the loop over the queue comes to its end, the queue is empty. *)
Lemma while_pop_drains n this body w w' :
  while_pop n this body w = Some (tt, w') ->
  ∃ p', pools w' !! this = Some p' ∧ gc p' = [].
Proof.
  revert w. induction n as [|n IH]; intros w E; cbn [while_pop] in E;
    apply bind_inv in E as (g & w1 & E1 & E);
    apply gc_of_pop in E1 as (p & Hp & Hg);
    destruct g as [v|].
  - discriminate E.
  - destruct Hg as [Hg ->]. injection E as <-. by exists p.
  - apply bind_inv in E as ([] & w2 & _ & E). by apply IH in E.
  - destruct Hg as [Hg ->]. injection E as <-. by exists p.
Qed.

(** X20.  After a destruct of a non-null pointer has run to its end, the
    pool's own queue is empty: every chunk other pools handed back has been
    taken off it. *)
Theorem destruct_drains_queue this x w w' :
  x ≠ nullptr ->
  destruct this x w = Some (tt, w') ->
  ∃ p', pools w' !! this = Some p' ∧ gc p' = [].
Proof.
  intros Hx E. unfold destruct in E. rewrite is_null_false in E by done.
  apply bind_inv in E as (child & w1 & _ & E).
  apply bind_inv in E as (self & w2 & _ & E).
  apply bind_inv in E as ([] & w3 & _ & E).
  apply bind_inv in E as (p & w4 & _ & E).
  by apply while_pop_drains in E.
Qed.

Lemma trim_same_queues this n : preserves same_queues (trim n this).
Proof.
  induction n as [|n IH]; cbn [trim]; unfold idle_fifo; frame;
    first [ apply IH | by eapply same_queues_insert ].
Qed.

Lemma trim_drains n this w w' :
  trim n this w = Some (tt, w') ->
  ∃ p', pools w' !! this = Some p' ∧ idle p' = [].
Proof.
  revert w. induction n as [|n IH]; intros w E; cbn [trim] in E;
    apply bind_inv in E as (p & w1 & E1 & E);
    unfold the_pool in E1;
    destruct (pools w !! this) as [p0|] eqn:Hp; try discriminate E1;
    injection E1 as -> ->;
    destruct (idle p) as [|b rest] eqn:Hi; cbn [length Nat.eqb negb] in E.
  - injection E as <-. by exists p.
  - discriminate E.
  - injection E as <-. by exists p.
  - apply bind_inv in E as (o & w2 & _ & E).
    apply bind_inv in E as ([] & w3 & _ & E). by apply IH in E.
Qed.

(** X21.  After cleanup has run to its end, both the pool's queue and its
    idle queue are empty. *)
Theorem cleanup_drains this w w' :
  cleanup this w = Some (tt, w') ->
  ∃ p', pools w' !! this = Some p' ∧ gc p' = [] ∧ idle p' = [].
Proof.
  intros E. unfold cleanup in E.
  apply bind_inv in E as (p & w1 & _ & E).
  apply bind_inv in E as ([] & w2 & E2 & E).
  apply bind_inv in E as (p2 & w3 & E3 & E).
  apply while_pop_drains in E2 as (q & Hq & Hg).
  pose proof (trim_same_queues _ _ _ _ _ E this) as Hsame.
  apply trim_drains in E as (p' & Hp' & Hi).
  exists p'. split; [done|]. split; [|done].
  assert (w3 = w2) as ->.
  { unfold the_pool in E3.
    destruct (pools w2 !! this); [|discriminate E3]. by injection E3 as _ <-. }
  rewrite Hp', Hq in Hsame. cbn in Hsame. injection Hsame as Hsame. congruence.
Qed.

(** X22.  On a pool with nothing queued and nothing idle, cleanup changes
    nothing. *)
Theorem cleanup_nothing_to_do this w p :
  pools w !! this = Some p -> gc p = [] -> idle p = [] ->
  cleanup this w = Some (tt, w).
Proof.
  intros Hp Hg Hi. destruct w as [h ps]. cbn [pools] in Hp.
  unfold cleanup. msimp.
  erewrite bind_eq by (by eapply while_pop_empty).
  msimp. by eapply trim_empty.
Qed.

Lemma cleanup_nothing_to_do_witness :
  cleanup A_ one_taken = Some (tt, one_taken).
Proof.
  apply (cleanup_nothing_to_do A_ one_taken
           (Pool 64 64 2 192 4096 [] {[4096]} []));
    vm_compute; reflexivity.
Defined.

Lemma destruct_drains_queue_witness :
  ∃ p', pools (after (destruct A_ 4160) queued) !! A_ = Some p' ∧ gc p' = [].
Proof.
  apply (destruct_drains_queue A_ 4160 queued); [done|].
  vm_compute. reflexivity.
Defined.

Lemma cleanup_drains_witness :
  ∃ p', pools (after (cleanup A_) queued) !! A_ = Some p' ∧
        gc p' = [] ∧ idle p' = [].
Proof.
  apply (cleanup_drains A_ queued). vm_compute. reflexivity.
Defined.

(** * Giving blocks back to the backend *)

Lemma unmap_keeps_none n b h k : h !! k = None -> unmap n b h !! k = None.
Proof.
  unfold unmap. revert b. induction n as [|n IH]; intros b Hk; [done|].
  cbn [cells foldr]. apply lookup_delete_None. right. by apply IH.
Qed.

Lemma unmap_cells n b h k : k ∈ cells n b -> unmap n b h !! k = None.
Proof.
  unfold unmap. revert b. induction n as [|n IH]; intros b Hk; cbn in Hk.
  - by apply elem_of_nil in Hk.
  - cbn [cells foldr]. apply lookup_delete_None.
    apply elem_of_cons in Hk as [->|Hk]; [by left|right; by apply IH].
Qed.

Lemma free_all_unmaps bytes bs w :
  ∃ h', foldr (fun b k => free b bytes ;;; k) (ret tt) bs w
        = Some (tt, World h' (pools w)) ∧
        (∀ k, heap w !! k = None -> h' !! k = None) ∧
        (∀ b k, b ∈ bs -> k ∈ cells (Z.to_nat (bytes / PTR)) b ->
                h' !! k = None).
Proof.
  revert w. induction bs as [|b bs IH]; intros w; cbn [foldr].
  - exists (heap w). destruct w. split; [done|]. split; [done|].
    intros b k Hb. by apply elem_of_nil in Hb.
  - unfold bind at 1, free at 1.
    destruct (IH (World (unmap (Z.to_nat (bytes / PTR)) b (heap w)) (pools w)))
      as (h' & E & Hn & Hc).
    exists h'. split; [exact E|]. cbn [heap] in Hn. split.
    + intros k Hk. by apply Hn, unmap_keeps_none.
    + intros b' k Hb Hk. apply elem_of_cons in Hb as [->|Hb].
      * by apply Hn, unmap_cells.
      * by eapply Hc.
Qed.

(** X23.  The destructor always runs to its end, and after it the pool
    object is gone, no word of any block in its [all] set is mapped any
    more, and nothing that was unmapped has become mapped. *)
Theorem pool_dtor_unmaps_blocks this w p :
  pools w !! this = Some p ->
  ∃ h', pool_dtor this w = Some (tt, World h' (delete this (pools w))) ∧
        (∀ b k, b ∈ all p -> k ∈ cells (Z.to_nat (ALLOCTATE p / PTR)) b ->
                h' !! k = None) ∧
        (∀ k, heap w !! k = None -> h' !! k = None).
Proof.
  intros Hp. destruct w as [h ps]. cbn [pools] in Hp.
  unfold pool_dtor. rewrite (bind_the_pool _ _ _ p) by done.
  destruct (free_all_unmaps (ALLOCTATE p) (elements (all p)) (World h ps))
    as (h' & E & Hn & Hc).
  erewrite bind_eq by exact E. exists h'. split; [done|]. split; [|done].
  intros b k Hb. apply Hc. by apply elem_of_elements.
Qed.

Lemma pool_dtor_unmaps_blocks_witness :
  ∃ h', pool_dtor A_ one_taken
        = Some (tt, World h' (delete A_ (pools one_taken))) ∧
        (∀ b k, b ∈ all (Pool 64 64 2 192 4096 [] {[4096]} []) ->
                k ∈ cells (Z.to_nat (192 / PTR)) b -> h' !! k = None) ∧
        (∀ k, heap one_taken !! k = None -> h' !! k = None).
Proof.
  apply (pool_dtor_unmaps_blocks A_ one_taken
           (Pool 64 64 2 192 4096 [] {[4096]} [])).
  vm_compute. reflexivity.
Defined.

Lemma reclaim_loop_same_but_queues this n :
  preserves same_but_queues (while_pop n this reclaim).
Proof.
  apply while_pop_preserves; [apply _..| |].
  - unfold gc_try_pop. frame. by eapply same_but_queues_insert.
  - intros x. unfold reclaim. frame.
Qed.

(** The second loop of cleanup maps nothing, adds no block to [all] and
    leaves the block size as it is. *)
Lemma trim_shrinks n this w w' p :
  pools w !! this = Some p ->
  trim n this w = Some (tt, w') ->
  (∀ k, heap w !! k = None -> heap w' !! k = None) ∧
  ∃ p', pools w' !! this = Some p' ∧ all p' ⊆ all p ∧
        ALLOCTATE p' = ALLOCTATE p.
Proof.
  revert w p. induction n as [|n IH]; intros [h ps] p Hp E;
    cbn [pools heap] in *; cbn [trim] in E;
    rewrite (bind_the_pool _ _ _ p) in E by done;
    destruct (idle p) as [|v rest] eqn:Hi; cbn [length Nat.eqb negb] in E.
  - injection E as <-. split; [done|]. by exists p.
  - discriminate E.
  - injection E as <-. split; [done|]. by exists p.
  - unfold idle_fifo in E. rewrite !bind_assoc in E.
    rewrite (bind_the_pool _ _ _ p) in E by done. rewrite Hi in E.
    rewrite !bind_assoc in E.
    rewrite (bind_update_pool _ _ _ p) in E by done.
    rewrite !bind_ret in E.
    destruct (is_null v); cbn [negb when] in E.
    + rewrite bind_ret in E.
      eapply IH in E as (Hn & p' & Hp' & Hs & Ha);
        [|cbn; by rewrite lookup_insert_eq].
      split; [done|]. exists p'. by destruct p.
    + rewrite !bind_assoc in E.
      erewrite bind_update_pool in E by (by rewrite lookup_insert_eq).
      unfold bind at 1, free at 1 in E. cbn [heap pools] in E.
      eapply IH in E as (Hn & p' & Hp' & Hs & Ha);
        [|cbn; by rewrite lookup_insert_eq].
      cbn [heap] in Hn. split.
      * intros k Hk. by apply Hn, unmap_keeps_none.
      * exists p'. split; [done|]. destruct p; cbn in *. split; [|done].
        intros x Hx. apply Hs in Hx. by apply elem_of_difference in Hx as [? _].
Qed.

Lemma trim_frees n this w w' p b k :
  pools w !! this = Some p ->
  trim n this w = Some (tt, w') ->
  b ∈ idle p -> b ≠ nullptr ->
  k ∈ cells (Z.to_nat (ALLOCTATE p / PTR)) b ->
  heap w' !! k = None ∧ ∃ p', pools w' !! this = Some p' ∧ b ∉ all p'.
Proof.
  revert w p. induction n as [|n IH]; intros [h ps] p Hp E Hb Hb0 Hk;
    cbn [pools heap] in *; cbn [trim] in E;
    rewrite (bind_the_pool _ _ _ p) in E by done;
    destruct (idle p) as [|v rest] eqn:Hi; cbn [length Nat.eqb negb] in E;
    try (by apply elem_of_nil in Hb); try discriminate E.
  unfold idle_fifo in E. rewrite !bind_assoc in E.
  rewrite (bind_the_pool _ _ _ p) in E by done. rewrite Hi in E.
  rewrite !bind_assoc in E.
  rewrite (bind_update_pool _ _ _ p) in E by done.
  rewrite !bind_ret in E.
  destruct (decide (b = v)) as [<-|Hne].
  - rewrite is_null_false in E by done. cbn [negb when] in E.
    rewrite !bind_assoc in E.
    erewrite bind_update_pool in E by (by rewrite lookup_insert_eq).
    unfold bind at 1, free at 1 in E. cbn [heap pools] in E.
    eapply trim_shrinks in E as (Hn & p' & Hp' & Hs & Ha);
      [|cbn; by rewrite lookup_insert_eq].
    cbn [heap] in Hn. split.
    + by apply Hn, unmap_cells.
    + exists p'. split; [done|]. destruct p; cbn in *.
      intros Hx. apply Hs in Hx. apply elem_of_difference in Hx as [_ Hx].
      apply Hx. by apply elem_of_singleton.
  - apply elem_of_cons in Hb as [?|Hb]; [done|].
    destruct (is_null v); cbn [negb when] in E.
    + rewrite bind_ret in E.
      eapply IH in E; [exact E|cbn; by rewrite lookup_insert_eq|..];
        destruct p; cbn in *; done.
    + rewrite !bind_assoc in E.
      erewrite bind_update_pool in E by (by rewrite lookup_insert_eq).
      unfold bind at 1, free at 1 in E. cbn [heap pools] in E.
      eapply IH in E; [exact E|cbn; by rewrite lookup_insert_eq|..];
        destruct p; cbn in *; done.
Qed.

(** X24.  cleanup gives every non-null block of the idle queue back to the
    backend and takes it out of [all]: after it no word of the block is
    mapped, and the block is no longer in [all], so that the destructor
    will not free it a second time. *)
Theorem cleanup_frees_idle this w w' p b k :
  pools w !! this = Some p ->
  cleanup this w = Some (tt, w') ->
  b ∈ idle p -> b ≠ nullptr ->
  k ∈ cells (Z.to_nat (ALLOCTATE p / PTR)) b ->
  heap w' !! k = None ∧ ∃ p', pools w' !! this = Some p' ∧ b ∉ all p'.
Proof.
  intros Hp E Hb Hb0 Hk. unfold cleanup in E.
  apply bind_inv in E as (p1 & w1 & E1 & E).
  apply bind_inv in E as ([] & w2 & E2 & E).
  apply bind_inv in E as (p2 & w3 & E3 & E).
  unfold the_pool in E1, E3. rewrite Hp in E1. injection E1 as <- <-.
  pose proof (reclaim_loop_same_but_queues _ _ _ _ _ E2 this) as Hsame.
  destruct (pools w2 !! this) as [q|] eqn:Hq; [|discriminate E3].
  injection E3 as <- <-.
  rewrite Hp in Hsame. cbn in Hsame. apply (inj Some) in Hsame.
  assert (idle q = idle p ∧ ALLOCTATE q = ALLOCTATE p) as [Hi Ha].
  { split; [apply (f_equal idle) in Hsame|apply (f_equal ALLOCTATE) in Hsame];
      by destruct p, q. }
  eapply (trim_frees _ _ _ _ q b k) in E; [done|done|by rewrite Hi|done|].
  by rewrite Ha.
Qed.

Lemma cleanup_frees_idle_witness :
  heap (after (cleanup A_) parked) !! 8200 = None ∧
  ∃ p', pools (after (cleanup A_) parked) !! A_ = Some p' ∧ 8192 ∉ all p'.
Proof.
  apply (cleanup_frees_idle A_ parked (after (cleanup A_) parked)
           (with_idle (with_all wide_pool {[8192]}) [8192]) 8192 8200).
  - vm_compute. reflexivity.
  - vm_compute. reflexivity.
  - apply elem_of_cons. by left.
  - done.
  - apply elem_of_cons. right. apply elem_of_cons. by left.
Defined.
